(** * Stability margins of python-control ([control/margins.py])

    A shallow embedding of [_polyimsplit], [stability_margins],
    [phase_crossover_frequencies] and [margin], with the properties of
    their results.

    Numbers.  The module computes with numpy [float64] and [complex128]
    arrays.  Here a float is a real number ([R]) and a complex number is a
    pair of reals, so that rounding is outside the model.  Two things that
    reals do not have are kept apart from them.  A division by zero, which
    numpy answers with [inf] or [nan] and a warning: [cdiv] takes the value
    Rocq gives to [x / 0], the sign test of line 169 is modelled on
    [real_of_quotient], which has the infinities and NaN, and the properties
    of a response are stated at the frequencies where the denominator is not
    zero.  The sign of a zero: [np.angle] answers [pi] or [-pi] on the
    negative real axis after the sign of the zero imaginary part, [arctan2]
    answers [PI], and the properties of a phase are stated off that axis.
    Arrays are lists.

    Library calls.  [np.roots], [scipy.optimize.brentq],
    [scipy.optimize.minimize_scalar] and the spline interpolant of
    [frdata.FRD] are numerical routines of other packages.  They are the
    fields of a record [numlib] that every entry point receives; what a proof
    needs of them is a hypothesis on the call it concerns. *)

From Stdlib Require Import Reals Lra Psatz List Permutation Sorted.
From Stdlib Require Import ZArith Lia Bool.
Import ListNotations.

Open Scope R_scope.

(** ** Comparisons as booleans *)

Definition Rleb (x y : R) : bool := if Rle_dec x y then true else false.
Definition Rltb (x y : R) : bool := if Rlt_dec x y then true else false.
Definition Reqb (x y : R) : bool := if Req_dec_T x y then true else false.

(** ** Complex numbers *)

Definition C : Type := (R * R)%type.

Definition RtoC (x : R) : C := (x, 0).
Definition Ci : C := (0, 1).
Definition Re (z : C) : R := fst z.
Definition Im (z : C) : R := snd z.
Definition cadd (a b : C) : C := (Re a + Re b, Im a + Im b).
Definition cneg (a : C) : C := (- Re a, - Im a).
Definition cmul (a b : C) : C :=
  (Re a * Re b - Im a * Im b, Re a * Im b + Im a * Re b).
(** [a / b] for [b] other than zero.  For [b = 0] numpy answers with
    infinities or NaN; the value here is then [(0, 0)], and is not the
    program's. *)
Definition cdiv (a b : C) : C :=
  ((Re a * Re b + Im a * Im b) / (Re b * Re b + Im b * Im b),
   (Im a * Re b - Re a * Im b) / (Re b * Re b + Im b * Im b)).
Definition cabs (a : C) : R := sqrt (Re a * Re a + Im a * Im a).

Fixpoint cpow (a : C) (n : nat) : C :=
  match n with
  | O => RtoC 1
  | S k => cmul a (cpow a k)
  end.

Definition Ceqb (a b : C) : bool := Reqb (Re a) (Re b) && Reqb (Im a) (Im b).

(** A float that may be infinite or not a number. *)
Inductive xfloat : Type :=
| Finite (x : R)
| PosInf
| NegInf
| NotANumber.

(** [x / 0.0]. *)
Definition div_by_zero (x : R) : xfloat :=
  if Rltb 0 x then PosInf else if Rltb x 0 then NegInf else NotANumber.

(** [np.real(a / b)] for two [complex128]: numpy divides by the complex zero
    component by component, so that the real part of the quotient is
    [Re a / 0.0]. *)
Definition real_of_quotient (a b : C) : xfloat :=
  if Ceqb b (RtoC 0) then div_by_zero (Re a) else Finite (Re (cdiv a b)).

(** [x < 0.0]: no comparison holds of NaN. *)
Definition xnegative (x : xfloat) : bool :=
  match x with
  | Finite r => Rltb r 0
  | NegInf => true
  | PosInf | NotANumber => false
  end.

(** [np.arctan2(y, x)] and [np.angle(z)], in radians.  For [y = 0] and
    [x <= 0] numpy's answer follows the signs of the two zeros ([pi] for
    [y = +0.0], [-pi] for [y = -0.0]), which a real number does not carry:
    the value here is that of the positive zero, and is the program's only
    off the non-positive real axis. *)
Definition arctan2 (y x : R) : R :=
  if Rltb 0 x then atan (y / x)
  else if Rltb x 0 then
    if Rleb 0 y then atan (y / x) + PI else atan (y / x) - PI
  else if Rltb 0 y then PI / 2
  else if Rltb y 0 then - PI / 2
  else 0.

Definition angle (z : C) : R := arctan2 (Im z) (Re z).

(** ** numpy array primitives *)

(** [a * b] on two arrays of one shape. *)
Definition map2 {A B D : Type} (f : A -> B -> D) (a : list A) (b : list B)
  : list D :=
  map (fun p => f (fst p) (snd p)) (combine a b).

(** [np.zeros_like(a)]. *)
Definition zeros_like (a : list R) : list R := map (fun _ => 0) a.

(** Writes [v] at index [skip], [skip + 4], [skip + 8], ... *)
Fixpoint assign_every4 (skip : nat) (v : R) (a : list R) : list R :=
  match a with
  | [] => []
  | x :: t =>
      match skip with
      | O => v :: assign_every4 3 v t
      | S s => x :: assign_every4 s v t
      end
  end.

(** [a[-k::-4] = v] for [k >= 1]: the indices run from the [k]-th element
    counted from the end towards the front in steps of four.  A start before
    the front of the array selects nothing. *)
Definition assign_back4 (k : nat) (v : R) (a : list R) : list R :=
  rev (assign_every4 (k - 1) v (rev a)).

(** [a[mask]] for a boolean array [mask] of the shape of [a]. *)
Fixpoint mask_select {A : Type} (mask : list bool) (a : list A) : list A :=
  match mask, a with
  | b :: m, x :: t => if b then x :: mask_select m t else mask_select m t
  | _, _ => []
  end.

(** ** Polynomials, highest degree first, as numpy's [polyval], [polyadd],
       [polysub], [polymul] and [polyder] treat them *)

Definition poly : Type := list R.

(** [np.polyval(p, x)] is Horner's rule, [y = y * x + pv] for [pv] in [p]. *)
Definition polyval (p : poly) (x : R) : R :=
  fold_left (fun y pv => y * x + pv) p 0.

Definition cpolyval (p : poly) (x : C) : C :=
  fold_left (fun y pv => cadd (cmul y x) (RtoC pv)) p (RtoC 0).

(** The shorter array is padded with zeros in front. *)
Definition pad_front {A : Type} (z : A) (n : nat) (a : list A) : list A :=
  repeat z (n - length a) ++ a.

Definition polyadd (a b : poly) : poly :=
  let n := Nat.max (length a) (length b) in
  map2 Rplus (pad_front 0 n a) (pad_front 0 n b).

Definition polysub (a b : poly) : poly :=
  let n := Nat.max (length a) (length b) in
  map2 Rminus (pad_front 0 n a) (pad_front 0 n b).

(** [poly1d] drops the leading zeros of its coefficients and keeps one zero
    for the zero polynomial. *)
Fixpoint trim_zeros_f (a : poly) : poly :=
  match a with
  | [] => []
  | x :: t => if Reqb x 0 then trim_zeros_f t else a
  end.

Definition poly1d (a : poly) : poly :=
  match trim_zeros_f a with
  | [] => [0]
  | c => c
  end.

(** [x * b], [x] a scalar. *)
Definition scale (x : R) (b : poly) : poly := map (Rmult x) b.

(** [np.convolve(a, b)] of two non-empty arrays has length
    [len(a) + len(b) - 1]. *)
Fixpoint convolve (a b : poly) : poly :=
  match a with
  | [] => []
  | [x] => scale x b
  | x :: t => polyadd (scale x b ++ repeat 0 (length t)) (convolve t b)
  end.

(** [np.polymul(a, b)] convolves the two [poly1d] coefficient arrays. *)
Definition polymul (a b : poly) : poly := convolve (poly1d a) (poly1d b).

(** [np.arange(n, 0, -1)], as reals. *)
Fixpoint arange_down (n : nat) : list R :=
  match n with
  | O => []
  | S k => INR n :: arange_down k
  end.

(** [np.polyder(p)] is [p[:-1] * arange(n, 0, -1)] with [n = len(p) - 1]. *)
Definition polyder (p : poly) : poly :=
  map2 Rmult (removelast p) (arange_down (length p - 1)).

(** ** [_polyimsplit] and [_polysqr] *)

Definition _polyimsplit (pol : poly) : poly * poly :=
  let rpencil := zeros_like pol in
  let ipencil := zeros_like pol in
  let rpencil := assign_back4 1 1 rpencil in
  let rpencil := assign_back4 3 (-1) rpencil in
  let ipencil := assign_back4 2 1 ipencil in
  let ipencil := assign_back4 4 (-1) ipencil in
  (map2 Rmult pol rpencil, map2 Rmult pol ipencil).

Definition _polysqr (pol : poly) : poly := polymul pol pol.

(** Arrays of complex coefficients: [np.polymul] in
    [phase_crossover_frequencies]. *)

Definition cpolyadd (a b : list C) : list C :=
  let n := Nat.max (length a) (length b) in
  map2 cadd (pad_front (RtoC 0) n a) (pad_front (RtoC 0) n b).

Fixpoint ctrim_zeros_f (a : list C) : list C :=
  match a with
  | [] => []
  | x :: t => if Ceqb x (RtoC 0) then ctrim_zeros_f t else a
  end.

Definition cpoly1d (a : list C) : list C :=
  match ctrim_zeros_f a with
  | [] => [RtoC 0]
  | c => c
  end.

Fixpoint cconvolve (a b : list C) : list C :=
  match a with
  | [] => []
  | [x] => map (cmul x) b
  | x :: t =>
      cpolyadd (map (cmul x) b ++ repeat (RtoC 0) (length t)) (cconvolve t b)
  end.

Definition cpolymul (a b : list C) : list C :=
  cconvolve (cpoly1d a) (cpoly1d b).

(** [np.sort]: ascending. *)
Fixpoint insert_sorted (x : R) (a : list R) : list R :=
  match a with
  | [] => [x]
  | y :: t => if Rleb x y then x :: a else y :: insert_sorted x t
  end.

Definition sort (a : list R) : list R := fold_right insert_sorted [] a.

(** [np.sign], [np.diff] and [np.where(a)[0]]. *)
Definition sign (x : R) : R :=
  if Rltb x 0 then -1 else if Rltb 0 x then 1 else 0.

Fixpoint diff (a : list R) : list R :=
  match a with
  | x :: ((y :: _) as t) => (y - x) :: diff t
  | _ => []
  end.

Fixpoint where_from (i : nat) (a : list R) : list nat :=
  match a with
  | [] => []
  | x :: t =>
      if Reqb x 0 then where_from (S i) t else i :: where_from (S i) t
  end.

Definition where_nz (a : list R) : list nat := where_from 0 a.

(** [a[start:stop]] with Python's treatment of negative and out-of-range
    bounds. *)
Definition py_slice {A : Type} (start stop : Z) (a : list A) : list A :=
  let n := Z.of_nat (length a) in
  let norm k := if (k <? 0)%Z then Z.max (k + n) 0 else Z.min k n in
  let s := norm start in
  let e := norm stop in
  firstn (Z.to_nat (e - s)) (skipn (Z.to_nat s) a).

(** ** Exceptions *)

Inductive error : Type :=
| ValueError_sysdata      (* "Margin sysdata must be either a linear system
                             or a 3-sequence of mag, phase, omega." *)
| ValueError_siso         (* "Can only do margins for SISO system" *)
| ValueError_arity (n : nat)
                          (* "Margin needs 1 or 3 arguments; received n." *)
| ValueError_amin         (* np.amin of an empty array *)
| IndexError              (* index out of bounds *)
| ConversionError         (* raised by _convertToTransferFunction *)
| SolverError.            (* raised inside brentq or minimize_scalar *)

Inductive result (A : Type) : Type :=
| Ok (a : A)
| Raise (e : error).

Arguments Ok {A} a.
Arguments Raise {A} e.

Definition bind {A B : Type} (r : result A) (k : A -> result B) : result B :=
  match r with
  | Ok a => k a
  | Raise e => Raise e
  end.

Notation "x <- r ;; k" := (bind r (fun x => k))
  (at level 61, r at next level, right associativity).

(** A list comprehension whose body may raise: the elements are evaluated
    from left to right and the first exception ends the evaluation. *)
Fixpoint mapM {A B : Type} (f : A -> result B) (a : list A)
  : result (list B) :=
  match a with
  | [] => Ok []
  | x :: t => y <- f x ;; ys <- mapM f t ;; Ok (y :: ys)
  end.

(** [a[i]] for [i >= 0], and [a[-1]]. *)
Definition getitem {A : Type} (a : list A) (i : nat) : result A :=
  match nth_error a i with
  | Some x => Ok x
  | None => Raise IndexError
  end.

Definition getlast {A : Type} (a : list A) : result A :=
  getitem (rev a) 0.

(** ** The numerical library *)

Record numlib : Type := {
  (** [np.roots(p)]. *)
  roots : poly -> list C;
  (** [sp.optimize.brentq(f, a, b)]. *)
  brentq : (R -> R) -> R -> R -> result R;
  (** [sp.optimize.minimize_scalar(f, bracket=(a, b)).x]. *)
  minimize_scalar : (R -> R) -> R -> R -> result R;
  (** [frdata.FRD(response, omega, smooth=True)]: the constructor raises, or
      gives an object whose [evalfr] interpolates the samples. *)
  frd_smooth : list C -> list R -> result (R -> C)
}.

(** ** Systems *)

(** [num[i][j]] and [den[i][j]] are the polynomials of the channel from
    input [j] to output [i]. *)
Record TransferFunction : Type := {
  inputs : nat;
  outputs : nat;
  num : list (list poly);
  den : list (list poly)
}.

(** Frequency response data: the grid and the samples of channel (0, 0),
    the only channel the module reads. *)
Record FRD : Type := {
  omega : list R;
  fresp : list C
}.

(** What a caller may pass as [sysdata]. *)
Inductive sysdata : Type :=
| SysFRD (f : FRD)
| SysTF (tf : TransferFunction)
| SysSeq3 (mag phase omega : list R)
| SysOther (conv : result TransferFunction).
    (* any other object, with what _convertToTransferFunction makes of it *)

(** The system after the dispatch on the type of [sysdata]. *)
Inductive ltisys : Type :=
| LtiTF (tf : TransferFunction)
| LtiFRD (omega : list R) (evalfr : R -> C).

(** Modelled from the spec: [lti.issiso] is not part of the sources; a SISO
    system has a single input and a single output. *)
Definition issiso (tf : TransferFunction) : bool :=
  Nat.eqb (inputs tf) 1 && Nat.eqb (outputs tf) 1.

(** Modelled from the spec: [xferfcn._convertToTransferFunction] is not part
    of the sources; a transfer function is returned as it is, frequency
    response data is not convertible, and for any other object the outcome
    of the conversion is carried by [SysOther]. *)
Definition _convertToTransferFunction (s : sysdata)
  : result TransferFunction :=
  match s with
  | SysTF tf => Ok tf
  | SysOther conv => conv
  | SysFRD _ | SysSeq3 _ _ _ => Raise ConversionError
  end.

(** [1.j * w]. *)
Definition jw (w : R) : C := cmul Ci (RtoC w).

(** Modelled from the spec: [TransferFunction.evalfr] is not part of the
    sources; the response of a channel at the frequency [w] is the value of
    its rational function [num / den] at [s = j w], which is also what
    lines 164-165 compute.  At a pole on the imaginary axis the value is
    that of [cdiv], not the program's. *)
Definition horner (n d : poly) (w : R) : C :=
  cdiv (cpolyval n (jw w)) (cpolyval d (jw w)).

(** [m[0][0]]. *)
Definition channel00 (m : list (list poly)) : result poly :=
  row <- getitem m 0%nat ;; getitem row 0%nat.

(** ** [stability_margins] *)

(** [z >= x] and [z > x] for a complex [z] and a float [x]: numpy orders
    complex numbers by real part, then by imaginary part. *)
Definition Cgeb (z : C) (x : R) : bool :=
  Rltb x (Re z) || (Reqb (Re z) x && Rleb 0 (Im z)).
Definition Cgtb (z : C) (x : R) : bool :=
  Rltb x (Re z) || (Reqb (Re z) x && Rltb 0 (Im z)).

(** The three derived polynomials of the analytic path. *)
Definition test_w_180 (n d : poly) : poly :=
  let '(rnum, inum) := _polyimsplit n in
  let '(rden, iden) := _polyimsplit d in
  polyadd (polymul inum rden) (polymul rnum (map Ropp iden)).

Definition test_wc (n d : poly) : poly :=
  let '(rnum, inum) := _polyimsplit n in
  let '(rden, iden) := _polyimsplit d in
  polysub (polyadd (_polysqr rnum) (_polysqr inum))
          (polyadd (_polysqr rden) (_polysqr iden)).

Definition test_wstabd (n d : poly) : poly :=
  let '(rden, iden) := _polyimsplit d in
  polyadd (_polysqr rden) (_polysqr iden).

Definition test_wstabn (n d : poly) : poly :=
  let '(rnum, inum) := _polyimsplit n in
  let '(rden, iden) := _polyimsplit d in
  polyadd (_polysqr (polyadd rnum rden)) (_polysqr (polyadd inum iden)).

Definition test_wstab (n d : poly) : poly :=
  polysub (polymul (polyder (test_wstabn n d)) (test_wstabd n d))
          (polymul (polyder (test_wstabd n d)) (test_wstabn n d)).

(** Lines 154-172: the phase crossovers of [n / d].  The quotient of
    lines 164-165 is taken with numpy's division, so that a root at which
    the denominator is zero has the response [-inf], [inf] or [nan]. *)
Definition analytic_w_180 (L : numlib) (n d : poly) (epsw : R) : list R :=
  let w_180 := roots L (test_w_180 n d) in
  let w_180 :=
    map Re (mask_select
              (map2 andb (map (fun z => Reqb (Im z) 0) w_180)
                         (map (fun z => Cgeb z epsw) w_180))
              w_180) in
  let resp_w_180 :=
    map (fun w => real_of_quotient (cpolyval n (jw w)) (cpolyval d (jw w)))
        w_180 in
  let w_180 := mask_select (map xnegative resp_w_180) w_180 in
  sort w_180.

(** Lines 175-180: the gain crossovers. *)
Definition analytic_wc (L : numlib) (n d : poly) (epsw : R) : list R :=
  let wc := roots L (test_wc n d) in
  let wc :=
    map Re (mask_select
              (map2 andb (map (fun z => Reqb (Im z) 0) wc)
                         (map (fun z => Cgtb z epsw) wc))
              wc) in
  sort wc.

(** Lines 185-205: the stationary points of the distance to -1. *)
Definition analytic_wstab (L : numlib) (n d : poly) (epsw : R) : list R :=
  let wstab := roots L (test_wstab n d) in
  let wstab :=
    map Re (mask_select
              (map2 andb (map (fun z => Reqb (Im z) 0) wstab)
                         (map (fun z => Rleb 0 (Re z)) wstab))
              wstab) in
  let wstabplus := map (polyval (polyder (test_wstab n d))) wstab in
  let wstab :=
    mask_select
      (map2 andb
         (map2 andb (map (fun w => Reqb (Im (RtoC w)) 0) wstab)
                    (map (fun w => Rltb epsw w) wstab))
         (map (fun p => Rltb 0 p) wstabplus))
      wstab in
  sort wstab.

(** Lines 209-250: the sampled path. *)
Section Sampled.

Variable L : numlib.
Variable omega_ : list R.
Variable evalfr : R -> C.

Definition mod_ (w : R) : R := cabs (evalfr w) - 1.
Definition arg (w : R) : R := angle (cneg (evalfr w)).
Definition dstab (w : R) : R := cabs (cadd (evalfr w) (RtoC 1)).

(** [brentq(f, omega[i], omega[i+1]) for i in widx if i+1 < len(omega)]. *)
Definition refine_brackets (f : R -> R) (widx : list nat)
  : result (list R) :=
  mapM (fun i =>
          a <- getitem omega_ i ;;
          b <- getitem omega_ (i + 1) ;;
          brentq L f a b)
       (filter (fun i => Nat.ltb (i + 1) (length omega_)) widx).

Definition sampled_wc : result (list R) :=
  let widx := where_nz (diff (map sign (map mod_ omega_))) in
  refine_brackets mod_ widx.

Definition sampled_w_180 : result (list R) :=
  let widx := where_nz (diff (map sign (map arg omega_))) in
  at_widx <- mapM (getitem omega_) widx ;;
  let widx :=
    mask_select (map (fun w => Rleb (Re (evalfr w)) 0) at_widx) widx in
  refine_brackets arg widx.

(** The condition of the comprehension at lines 246-247. *)
Definition stab_bracket_ok (i : nat) : result bool :=
  if Nat.ltb (i + 1) (length omega_) then
    let window :=
      py_slice (Z.of_nat i - 1) (Z.of_nat i + 2) omega_ in
    dd <- getitem (diff (diff (map dstab window))) 0%nat ;;
    Ok (Rltb 0 dd)
  else Ok false.

Fixpoint stab_candidates (widx : list nat) : result (list R) :=
  match widx with
  | [] => Ok []
  | i :: t =>
      keep <- stab_bracket_ok i ;;
      if keep then
        a <- getitem omega_ i ;;
        b <- getitem omega_ (i + 1) ;;
        x <- minimize_scalar L dstab a b ;;
        xs <- stab_candidates t ;;
        Ok (x :: xs)
      else stab_candidates t
  end.

Definition sampled_wstab : result (list R) :=
  let widx := where_nz (diff (map sign (diff (map dstab omega_)))) in
  wstab <- stab_candidates widx ;;
  lo <- getitem omega_ 0%nat ;;
  hi <- getlast omega_ ;;
  Ok (mask_select
        (map2 andb (map (fun w => Rleb lo w) wstab)
                   (map (fun w => Rleb w hi) wstab))
        wstab).

End Sampled.

(** What [stability_margins] returns is a tuple of six entries: six arrays
    when [returnall] is set, six numbers or [None] otherwise. *)
Inductive mval : Type :=
| Arr (a : list R)
| Num (x : option R).

Record tuple6 : Type := Tuple6 {
  item0 : mval;
  item1 : mval;
  item2 : mval;
  item3 : mval;
  item4 : mval;
  item5 : mval
}.

(** [np.amin(a)]. *)
Definition amin (a : list R) : result R :=
  match a with
  | [] => Raise ValueError_amin
  | x :: t => Ok (fold_left Rmin t x)
  end.

(** [(m.shape[0] or None) and np.amin(m)]. *)
Definition min_value (m : list R) : result (option R) :=
  match length m with
  | O => Ok None
  | S _ => v <- amin m ;; Ok (Some v)
  end.

(** [(w.shape[0] or None) and w[m == np.amin(m)][0]]. *)
Definition min_frequency (m w : list R) : result (option R) :=
  match length w with
  | O => Ok None
  | S _ =>
      v <- amin m ;;
      f <- getitem (mask_select (map (fun x => Reqb x v) m) w) 0%nat ;;
      Ok (Some f)
  end.

(** Lines 126-140: the dispatch on the type of [sysdata].  An exception in
    it is replaced by the [ValueError] of line 139. *)
Definition cexp_j (theta : R) : C := (cos theta, sin theta).

Definition dispatch (L : numlib) (s : sysdata) : result ltisys :=
  let attempt :=
    match s with
    | SysFRD f =>
        ev <- frd_smooth L (fresp f) (omega f) ;; Ok (LtiFRD (omega f) ev)
    | SysTF tf => Ok (LtiTF tf)
    | SysSeq3 mag phase om =>
        let resp :=
          map2 (fun m ph => cmul (RtoC m) (cexp_j (ph * PI / 180)))
               mag phase in
        ev <- frd_smooth L resp om ;; Ok (LtiFRD om ev)
    | SysOther _ =>
        tf <- _convertToTransferFunction s ;; Ok (LtiTF tf)
    end in
  match attempt with
  | Ok sys => Ok sys
  | Raise _ => Raise ValueError_sysdata
  end.

(** The three frequency sets and the response evaluation of either path. *)
Definition crossovers (L : numlib) (sys : ltisys) (epsw : R)
  : result (list R * list R * list R * (R -> C)) :=
  match sys with
  | LtiTF tf =>
      if negb (issiso tf) then Raise ValueError_siso
      else
        n <- channel00 (num tf) ;;
        d <- channel00 (den tf) ;;
        Ok (analytic_w_180 L n d epsw,
            analytic_wc L n d epsw,
            analytic_wstab L n d epsw,
            horner n d)
  | LtiFRD om ev =>
      wc <- sampled_wc L om ev ;;
      w_180 <- sampled_w_180 L om ev ;;
      wstab <- sampled_wstab L om ev ;;
      Ok (w_180, wc, wstab, ev)
  end.

(** Lines 126-269.  The margins of lines 256-258 are computed on reals:
    they are the program's where the response at the frequency is finite,
    is not zero for the gain margin, and is off the non-positive real axis
    for the phase margin. *)
Definition stability_margins (L : numlib) (s : sysdata) (returnall : bool)
  (epsw : R) : result tuple6 :=
  sys <- dispatch L s ;;
  found <- crossovers L sys epsw ;;
  let '(w_180, wc, wstab, ev) := found in
  let GM := map (fun w => 1 / cabs (ev w)) w_180 in
  let SM := map (fun w => cabs (cadd (ev w) (RtoC 1))) wstab in
  let PM := map (fun w => angle (ev w) * (180 / PI) + 180) wc in
  if returnall then
    Ok (Tuple6 (Arr GM) (Arr PM) (Arr SM) (Arr w_180) (Arr wc) (Arr wstab))
  else
    gm <- min_value GM ;;
    pm <- min_value PM ;;
    sm <- min_value SM ;;
    wg <- min_frequency GM w_180 ;;
    wp <- min_frequency PM wc ;;
    ws <- min_frequency SM wstab ;;
    Ok (Tuple6 (Num gm) (Num pm) (Num sm) (Num wg) (Num wp) (Num ws)).

(** The default of [epsw]. *)
Definition epsw_default : R := 1 / 100000000.

(** ** [phase_crossover_frequencies] *)

(** [np.arange(n - 1, -1, -1)]. *)
Definition powers_down (n : nat) : list nat := rev (seq 0 n).

Definition crossing_poly (n d : poly) : poly :=
  let numj :=
    map2 (fun k c => cmul (cpow Ci k) (RtoC c)) (powers_down (length n)) n in
  let denj :=
    map2 (fun k c => cmul (cpow (cneg Ci) k) (RtoC c))
         (powers_down (length d)) d in
  map Im (cpolymul numj denj).

(** Lines 296-315.  The gain is the program's at the frequencies where the
    denominator is not zero; at a pole the program's gain is infinite or
    NaN. *)
Definition phase_crossover_frequencies (L : numlib) (s : sysdata)
  : result (list R * list R) :=
  tf <- _convertToTransferFunction s ;;
  n <- channel00 (num tf) ;;
  d <- channel00 (den tf) ;;
  let allfreq := roots L (crossing_poly n d) in
  let realfreq :=
    map Re (mask_select (map (fun z => Reqb (Im z) 0) allfreq) allfreq) in
  let realposfreq :=
    mask_select (map (fun f => Rleb 0 f) realfreq) realfreq in
  let gain := map (fun f => Re (horner n d f)) realposfreq in
  Ok (realposfreq, gain).

(** ** [margin] *)

(** The positional arguments of a call of [margin]. *)
Inductive margin_args : Type :=
| OneArg (sys : sysdata)
| ThreeArgs (mag phase omega : list R)
| OtherArity (n : nat).

Definition margin (L : numlib) (args : margin_args)
  : result (mval * mval * mval * mval) :=
  margin <- match args with
            | OneArg sys => stability_margins L sys false epsw_default
            | ThreeArgs mag phase om =>
                stability_margins L (SysSeq3 mag phase om) false epsw_default
            | OtherArity n => Raise (ValueError_arity n)
            end ;;
  Ok (item0 margin, item1 margin, item3 margin, item4 margin).

(** ** Polynomials with the constant term first

    The evaluation of a reversed coefficient list, used to reason about
    Horner's rule from the low end. *)

Fixpoint eval_low (a : list R) (x : R) : R :=
  match a with
  | [] => 0
  | c :: t => c + x * eval_low t x
  end.

Fixpoint ceval_low (a : list R) (x : C) : C :=
  match a with
  | [] => RtoC 0
  | c :: t => cadd (RtoC c) (cmul x (ceval_low t x))
  end.

(** ** Example systems and libraries *)

(** [TransferFunction(n, d)] for two coefficient lists. *)
Definition tf_siso (n d : poly) : TransferFunction :=
  {| inputs := 1; outputs := 1; num := [[n]]; den := [[d]] |}.

(** A root finder given by a table of polynomials and their roots. *)
Fixpoint roots_table (tab : list (poly * list C)) (p : poly) : list C :=
  match tab with
  | [] => []
  | (q, l) :: t =>
      if list_eq_dec Req_dec_T p q then l else roots_table t p
  end.

(** A library with the root finder [r]; its solvers answer with the lower end
    of the bracket, and it builds no frequency response object. *)
Definition lib_of_roots (r : poly -> list C) : numlib :=
  {| roots := r;
     brentq := fun _ a _ => Ok a;
     minimize_scalar := fun _ a _ => Ok a;
     frd_smooth := fun _ _ => Raise ValueError_sysdata |}.

(** [G(s) = -5 / (s^2 + 9)]: its Nyquist curve passes through -1 at the
    frequency 2.  The combined polynomial of the stability margin is
    [-20 w (w^2 - 4) (w^2 - 9)]. *)
Definition resonant_num : poly := [-5].
Definition resonant_den : poly := [1; 0; 9].
Definition resonant_lib : numlib :=
  lib_of_roots (fun _ => [(3, 0); (-3, 0); (2, 0); (-2, 0); (0, 0)]).

(** [G(s) = 10 / (s (s + 1)^2)], with phase crossover at the frequency 1
    and gain crossover at the frequency 2. *)
Definition lag_num : poly := [10].
Definition lag_den : poly := [1; 2; 1; 0].
Definition lag_lib : numlib :=
  lib_of_roots
    (roots_table
       [([10; 0; -10; 0], [(1, 0); (-1, 0); (0, 0)]);
        ([-1; 0; -2; 0; -1; 0; 100],
         [(2, 0); (-2, 0); (1, 2); (1, -2); (-1, 2); (-1, -2)])]).

(** [G(s) = 1 / (s^3 + 2 s^2 + 3 s + 4)], the example of the docstring of
    [phase_crossover_frequencies], and a root finder that answers as the
    docstring reports: the zero root of [w^3 - 3 w] comes last. *)
Definition doc_num : poly := [1].
Definition doc_den : poly := [1; 2; 3; 4].
Definition doc_lib : numlib :=
  lib_of_roots (fun _ => [(sqrt 3, 0); (- sqrt 3, 0); (0, 0)]).

(** The double integrator [G(s) = 1 / s^2], whose response [-1 / w^2] is
    on the negative real axis at every frequency: the polynomial
    [Ni Dr - Nr Di] has the coefficients [0, 0, 0], and [np.roots] answers
    an array without a coefficient other than zero with the empty array. *)
Definition integrator2_num : poly := [1].
Definition integrator2_den : poly := [1; 0; 0].
Definition integrator2_lib : numlib := lib_of_roots (fun _ => []).

(** A system with two inputs and two outputs whose channel (0, 0) is the
    example of the docstring. *)
Definition mimo_tf : TransferFunction :=
  {| inputs := 2; outputs := 2;
     num := [[[1]; [2]]; [[3]; [4; 5]]];
     den := [[[1; 2; 3; 4]; [1; 1]]; [[1; 6]; [1; 7; 8]]] |}.

(** The frequencies [phase_crossover_frequencies] reports for the channel
    [n / d]: the real parts of the roots with zero imaginary part and
    non-negative real part, in the order of the root finder. *)
Definition crossing_frequencies (L : numlib) (n d : poly) : list R :=
  map Re (filter (fun z => Reqb (Im z) 0 && Rleb 0 (Re z))
                 (roots L (crossing_poly n d))).

(** Frequency response data on the grid [1, 2, 3] whose interpolant is
    [G(w) = (w - 2)^2]: the magnitude crosses 1 at both ends of the grid and
    the distance to -1 has its minimum at the middle sample. *)
Definition sample_response (w : R) : C := ((w - 2) * (w - 2), 0).
Definition sample_frd : FRD :=
  {| omega := [1; 2; 3]; fresp := map sample_response [1; 2; 3] |}.

(** A library whose solvers always converge, and one whose bracketed
    root-finder never does. *)
Definition sample_lib : numlib :=
  {| roots := fun _ => [];
     brentq := fun _ a _ => Ok a;
     minimize_scalar := fun _ a _ => Ok a;
     frd_smooth := fun _ _ => Ok sample_response |}.


(** The same response on the grid [0, 1, 2, 3]: the first differences of
    the distance to -1 change sign between the second and the third
    interval only. *)
Definition sample_frd4 : FRD :=
  {| omega := [0; 1; 2; 3]; fresp := map sample_response [0; 1; 2; 3] |}.

(** A response with the real part -1 at every frequency, which crosses the
    negative real axis at the frequency 2. *)
Definition lead_response (w : R) : C := (-1, w - 2).

(** ** The brackets of the sampled path *)

Definition gain_brackets (om : list R) (ev : R -> C) : list nat :=
  where_nz (diff (map sign (map (mod_ ev) om))).

Definition phase_brackets (om : list R) (ev : R -> C) : list nat :=
  filter (fun i => Rleb (Re (ev (nth i om 0))) 0)
         (where_nz (diff (map sign (map (arg ev) om)))).

Definition stab_brackets (om : list R) (ev : R -> C) : list nat :=
  where_nz (diff (map sign (diff (map (dstab ev) om)))).


(** ** The reduction in the words of the specification

    The reduced value is the minimum of the full array and the reduced
    frequency is the entry of the frequency array at the first index where
    the minimum is attained; both are [None] for an empty array. *)

Definition is_minimum (m : list R) (v : R) : Prop :=
  In v m /\ forall y, In y m -> v <= y.

Fixpoint first_index_of (v : R) (m : list R) : option nat :=
  match m with
  | [] => None
  | x :: t => if Reqb x v then Some O else option_map S (first_index_of v t)
  end.

Definition consistent_reduction (m w : list R) (value freq : mval) : Prop :=
  match m with
  | [] => value = Num None /\ freq = Num None
  | _ :: _ =>
      exists v i f,
        is_minimum m v /\ first_index_of v m = Some i /\
        nth_error w i = Some f /\
        value = Num (Some v) /\ freq = Num (Some f)
  end.

(** ** The arrays returned for a transfer function

    [w] is the fourth, respectively the sixth, entry of the tuple that
    [stability_margins] returns with [returnall] set. *)
Definition returns_w_180 (L : numlib) (tf : TransferFunction) (epsw : R)
  (w : list R) : Prop :=
  exists t, stability_margins L (SysTF tf) true epsw = Ok t /\
            item3 t = Arr w.

Definition returns_wstab (L : numlib) (tf : TransferFunction) (epsw : R)
  (w : list R) : Prop :=
  exists t, stability_margins L (SysTF tf) true epsw = Ok t /\
            item5 t = Arr w.

(** ** The squared distance of the response to -1 *)
Definition dist2 (n d : poly) (w : R) : R :=
  let z := cadd (horner n d w) (RtoC 1) in
  Re z * Re z + Im z * Im z.

(** ** Polynomials with complex coefficients

    The value of an array of complex coefficients by Horner's rule, from
    the high and from the low end, and the complex conjugate. *)
Definition ccpolyval (p : list C) (x : C) : C :=
  fold_left (fun y pv => cadd (cmul y x) pv) p (RtoC 0).

Fixpoint cceval_low (a : list C) (x : C) : C :=
  match a with
  | [] => RtoC 0
  | c :: t => cadd c (cmul x (cceval_low t x))
  end.

Definition cconj (z : C) : C := (Re z, - Im z).

(** ** The pencils of [_polyimsplit] by the power of the coefficient

    The factor of the coefficient of [s^e] in the real and in the imaginary
    polynomial: the real and the imaginary part of [j^e]. *)
Definition rpencil_at (e : nat) : R :=
  match Nat.modulo e 4 with
  | 0%nat => 1
  | 2%nat => -1
  | _ => 0
  end.

Definition ipencil_at (e : nat) : R :=
  match Nat.modulo e 4 with
  | 1%nat => 1
  | 3%nat => -1
  | _ => 0
  end.

(** ** What the proofs ask of [np.roots]

    The entries of [l] with zero imaginary part are the real zeros of [p]:
    a real number is listed exactly when [p] vanishes there. *)
Definition real_roots_ok (p : poly) (l : list C) : Prop :=
  forall w : R, In (w, 0) l <-> polyval p w = 0.

(** ** The sign test of line 169 and the poles on the imaginary axis

    [response_negative n d w] is the entry of the mask
    [np.real(resp_w_180) < 0.0] at the frequency [w].  A transfer function
    has no pole at [w] when the denominator of its channel (0, 0) is not
    zero at [j w]; frequency response data has none. *)
Definition response_negative (n d : poly) (w : R) : bool :=
  xnegative (real_of_quotient (cpolyval n (jw w)) (cpolyval d (jw w))).

Definition no_pole_at (sys : ltisys) (w : R) : Prop :=
  match sys with
  | LtiTF tf =>
      forall d, channel00 (den tf) = Ok d -> cpolyval d (jw w) <> RtoC 0
  | LtiFRD _ _ => True
  end.

(** * Properties *)

(** ** Booleans of comparisons *)

Lemma Rleb_true (x y : R) : Rleb x y = true <-> x <= y.
Proof.
  unfold Rleb; destruct (Rle_dec x y); split; intros; auto;
    discriminate || lra.
Qed.

Lemma Rltb_true (x y : R) : Rltb x y = true <-> x < y.
Proof.
  unfold Rltb; destruct (Rlt_dec x y); split; intros; auto;
    discriminate || lra.
Qed.

Lemma Reqb_true (x y : R) : Reqb x y = true <-> x = y.
Proof.
  unfold Reqb; destruct (Req_dec_T x y); split; intros; auto;
    discriminate || lra.
Qed.

Lemma Rleb_false (x y : R) : Rleb x y = false <-> y < x.
Proof.
  unfold Rleb; destruct (Rle_dec x y); split; intros; auto;
    discriminate || lra.
Qed.

Lemma Rltb_false (x y : R) : Rltb x y = false <-> y <= x.
Proof.
  unfold Rltb; destruct (Rlt_dec x y); split; intros; auto;
    discriminate || lra.
Qed.

Lemma Reqb_false (x y : R) : Reqb x y = false <-> x <> y.
Proof.
  unfold Reqb; destruct (Req_dec_T x y); split; intros; auto;
    discriminate || contradiction.
Qed.

Lemma Reqb_refl (x : R) : Reqb x x = true.
Proof. now apply Reqb_true. Qed.

Lemma Ceqb_true (a b : C) : Ceqb a b = true <-> a = b.
Proof.
  unfold Ceqb. rewrite andb_true_iff, !Reqb_true.
  destruct a, b; unfold Re, Im; simpl. split.
  - intros [-> ->]. reflexivity.
  - intros H. injection H as -> ->. auto.
Qed.

(** ** Arrays *)

Lemma map2_cons {A B D : Type} (f : A -> B -> D) x a y b :
  map2 f (x :: a) (y :: b) = f x y :: map2 f a b.
Proof. reflexivity. Qed.

Lemma map2_length {A B D : Type} (f : A -> B -> D) a b :
  length a = length b -> length (map2 f a b) = length a.
Proof.
  intros H. unfold map2. rewrite length_map, length_combine, <- H.
  apply Nat.min_id.
Qed.

Lemma combine_snoc {A B : Type} (a : list A) (b : list B) x y :
  length a = length b ->
  combine (a ++ [x]) (b ++ [y]) = combine a b ++ [(x, y)].
Proof.
  revert b. induction a as [|u a IH]; intros [|v b] H; simpl in *;
    try discriminate; auto.
  f_equal. apply IH. congruence.
Qed.

Lemma rev_combine {A B : Type} (a : list A) (b : list B) :
  length a = length b -> rev (combine a b) = combine (rev a) (rev b).
Proof.
  revert b. induction a as [|u a IH]; intros [|v b] H; simpl in *;
    try discriminate; auto.
  rewrite combine_snoc by (rewrite !length_rev; congruence).
  f_equal. apply IH. congruence.
Qed.

Lemma rev_map2 {A B D : Type} (f : A -> B -> D) a b :
  length a = length b -> rev (map2 f a b) = map2 f (rev a) (rev b).
Proof.
  intros H. unfold map2. now rewrite <- map_rev, rev_combine.
Qed.

Lemma assign_every4_length k v a : length (assign_every4 k v a) = length a.
Proof.
  revert k. induction a as [|x a IH]; intros k; simpl; auto.
  destruct k; simpl; now rewrite IH.
Qed.

Lemma assign_back4_length k v a : length (assign_back4 k v a) = length a.
Proof.
  unfold assign_back4. now rewrite length_rev, assign_every4_length, length_rev.
Qed.

Lemma zeros_like_length a : length (zeros_like a) = length a.
Proof. apply length_map. Qed.

Lemma zeros_like_rev a : rev (zeros_like a) = zeros_like (rev a).
Proof. unfold zeros_like. now rewrite map_rev. Qed.

(** ** Horner's rule from the low end *)

Lemma polyval_rev p x : polyval p x = eval_low (rev p) x.
Proof.
  unfold polyval. rewrite <- fold_left_rev_right.
  induction (rev p) as [|c t IH]; simpl; auto.
  rewrite IH. ring.
Qed.

Lemma cpolyval_rev p x : cpolyval p x = ceval_low (rev p) x.
Proof.
  unfold cpolyval. rewrite <- fold_left_rev_right.
  induction (rev p) as [|c t IH]; simpl; auto.
  rewrite IH. unfold cadd, cmul, RtoC, Re, Im; simpl. f_equal; ring.
Qed.

(** The four phases of the pencils along a reversed coefficient list. *)
Lemma pencil_phases (l : list R) (w : R) :
  let pen a b := assign_every4 a (-1) (assign_every4 b 1 (zeros_like l)) in
  eval_low (map2 Rmult l (pen 2 0)%nat) w = Re (ceval_low l (jw w)) /\
  eval_low (map2 Rmult l (pen 3 1)%nat) w = Im (ceval_low l (jw w)) /\
  eval_low (map2 Rmult l (pen 0 2)%nat) w = - Re (ceval_low l (jw w)) /\
  eval_low (map2 Rmult l (pen 1 3)%nat) w = - Im (ceval_low l (jw w)).
Proof.
  cbv zeta. induction l as [|c t IH].
  - unfold Re, Im; simpl. repeat split; ring.
  - destruct IH as (H0 & H1 & H2 & H3).
    change (zeros_like (c :: t)) with (0 :: zeros_like t).
    cbn [assign_every4]. rewrite !map2_cons. cbn [eval_low ceval_low].
    rewrite H0, H1, H2, H3.
    unfold jw, cadd, cmul, RtoC, Ci, Re, Im; simpl.
    repeat split; ring.
Qed.

Lemma polyimsplit_low (pol : poly) :
  rev (fst (_polyimsplit pol)) =
    map2 Rmult (rev pol)
      (assign_every4 2 (-1) (assign_every4 0 1 (zeros_like (rev pol)))) /\
  rev (snd (_polyimsplit pol)) =
    map2 Rmult (rev pol)
      (assign_every4 3 (-1) (assign_every4 1 1 (zeros_like (rev pol)))).
Proof.
  unfold _polyimsplit, assign_back4; simpl fst; simpl snd.
  rewrite !rev_involutive, !zeros_like_rev.
  split; rewrite rev_map2, rev_involutive; auto;
    now rewrite length_rev, !assign_every4_length, zeros_like_length, length_rev.
Qed.

Lemma polyimsplit_values (P : poly) (w : R) :
  polyval (fst (_polyimsplit P)) w = Re (cpolyval P (jw w)) /\
  polyval (snd (_polyimsplit P)) w = Im (cpolyval P (jw w)).
Proof.
  destruct (polyimsplit_low P) as [Hr Hi].
  destruct (pencil_phases (rev P) w) as (H0 & H1 & _ & _).
  rewrite !polyval_rev, cpolyval_rev, Hr, Hi. split; auto.
Qed.

Lemma polyimsplit_lengths (P : poly) :
  length (fst (_polyimsplit P)) = length P /\
  length (snd (_polyimsplit P)) = length P.
Proof.
  split.
  - unfold _polyimsplit; simpl fst. rewrite map2_length; auto.
    now rewrite !assign_back4_length, zeros_like_length.
  - unfold _polyimsplit; simpl snd. rewrite map2_length; auto.
    now rewrite !assign_back4_length, zeros_like_length.
Qed.

(** C4: for every coefficient sequence [P] and every real [w], the two
    polynomials of [_polyimsplit P] take at [w] the real part and the
    imaginary part of [P] at [j w]; the splitter is a total function and both
    outputs have the length of its input. *)
Theorem polyimsplit_correct (P : poly) (w : R) :
  polyval (fst (_polyimsplit P)) w = Re (cpolyval P (jw w)) /\
  polyval (snd (_polyimsplit P)) w = Im (cpolyval P (jw w)) /\
  length (fst (_polyimsplit P)) = length P /\
  length (snd (_polyimsplit P)) = length P.
Proof.
  destruct (polyimsplit_values P w) as [Hr Hi].
  destruct (polyimsplit_lengths P) as [Lr Li].
  repeat split; assumption.
Qed.

(** ** Values of the polynomial operations *)

Lemma horner_acc (p : poly) (x y : R) :
  fold_left (fun y pv => y * x + pv) p y = y * x ^ length p + polyval p x.
Proof.
  unfold polyval. revert y. induction p as [|c t IH]; intros y; simpl.
  - ring.
  - rewrite IH, (IH (0 * x + c)). ring.
Qed.

Lemma polyval_cons c t x : polyval (c :: t) x = c * x ^ length t + polyval t x.
Proof.
  unfold polyval at 1. simpl. rewrite horner_acc. ring.
Qed.

Lemma polyval_app a b x :
  polyval (a ++ b) x = polyval a x * x ^ length b + polyval b x.
Proof.
  unfold polyval at 1. rewrite fold_left_app, horner_acc. reflexivity.
Qed.

Lemma polyval_zeros n x : polyval (repeat 0 n) x = 0.
Proof.
  induction n as [|n IH]; simpl; auto.
  rewrite polyval_cons, IH. ring.
Qed.

Lemma polyval_pad_front n a x : polyval (pad_front 0 n a) x = polyval a x.
Proof.
  unfold pad_front. rewrite polyval_app, polyval_zeros. ring.
Qed.

Lemma pad_front_length {A : Type} (z : A) n a :
  (length a <= n)%nat -> length (pad_front z n a) = n.
Proof.
  intros H. unfold pad_front. rewrite length_app, repeat_length. lia.
Qed.

Lemma horner_map2 (op : R -> R -> R) a b x :
  (forall u v s t, op (u * x + s) (v * x + t) = op u v * x + op s t) ->
  length a = length b ->
  forall y1 y2,
    fold_left (fun y pv => y * x + pv) (map2 op a b) (op y1 y2) =
    op (fold_left (fun y pv => y * x + pv) a y1)
       (fold_left (fun y pv => y * x + pv) b y2).
Proof.
  intros Hop. revert b. induction a as [|u a IH]; intros [|v b] Hlen y1 y2;
    try discriminate; auto.
  rewrite map2_cons. cbn [fold_left]. rewrite <- Hop. apply IH.
  simpl in Hlen. congruence.
Qed.

Lemma polyval_map2 (op : R -> R -> R) a b x :
  (forall u v s t, op (u * x + s) (v * x + t) = op u v * x + op s t) ->
  op 0 0 = 0 ->
  length a = length b ->
  polyval (map2 op a b) x = op (polyval a x) (polyval b x).
Proof.
  intros Hop H0 Hlen. unfold polyval.
  rewrite <- (horner_map2 op a b x Hop Hlen). now rewrite H0.
Qed.

Lemma polyval_polyadd a b x :
  polyval (polyadd a b) x = polyval a x + polyval b x.
Proof.
  unfold polyadd. rewrite polyval_map2.
  - now rewrite !polyval_pad_front.
  - intros; ring.
  - ring.
  - rewrite !pad_front_length; lia.
Qed.

Lemma polyval_polysub a b x :
  polyval (polysub a b) x = polyval a x - polyval b x.
Proof.
  unfold polysub. rewrite polyval_map2.
  - now rewrite !polyval_pad_front.
  - intros; ring.
  - ring.
  - rewrite !pad_front_length; lia.
Qed.

Lemma polyval_trim a x : polyval (trim_zeros_f a) x = polyval a x.
Proof.
  induction a as [|c t IH]; simpl; auto.
  destruct (Reqb c 0) eqn:E; auto.
  apply Reqb_true in E. subst c. rewrite IH, polyval_cons. ring.
Qed.

Lemma polyval_poly1d a x : polyval (poly1d a) x = polyval a x.
Proof.
  unfold poly1d. rewrite <- (polyval_trim a).
  destruct (trim_zeros_f a); auto.
  unfold polyval; simpl; ring.
Qed.

Lemma polyval_scale c b x : polyval (scale c b) x = c * polyval b x.
Proof.
  unfold scale. induction b as [|u b IH]; simpl.
  - unfold polyval; simpl; ring.
  - rewrite !polyval_cons, IH, length_map. ring.
Qed.

Lemma polyval_convolve a b x :
  polyval (convolve a b) x = polyval a x * polyval b x.
Proof.
  induction a as [|c t IH].
  - unfold polyval; simpl; ring.
  - destruct t as [|c' t'].
    + simpl. rewrite polyval_scale. unfold polyval at 2; simpl. ring.
    + change (convolve (c :: c' :: t') b)
        with (polyadd (scale c b ++ repeat 0 (length (c' :: t')))
                      (convolve (c' :: t') b)).
      rewrite polyval_polyadd, polyval_app, polyval_zeros, polyval_scale, IH.
      rewrite repeat_length, (polyval_cons c). ring.
Qed.

Lemma polyval_polymul a b x :
  polyval (polymul a b) x = polyval a x * polyval b x.
Proof.
  unfold polymul. now rewrite polyval_convolve, !polyval_poly1d.
Qed.

Lemma polyval_polysqr a x : polyval (_polysqr a) x = polyval a x * polyval a x.
Proof. apply polyval_polymul. Qed.

Lemma polyval_opp a x : polyval (map Ropp a) x = - polyval a x.
Proof.
  induction a as [|u a IH]; simpl.
  - unfold polyval; simpl; ring.
  - rewrite !polyval_cons, IH, length_map. ring.
Qed.

(** ** Boolean masks *)

Lemma mask_select_map {A : Type} (f : A -> bool) (a : list A) :
  mask_select (map f a) a = filter f a.
Proof.
  induction a as [|x a IH]; simpl; auto.
  destruct (f x); now rewrite IH.
Qed.

Lemma map2_map {A B D E : Type} (op : B -> D -> E) (f : A -> B) (g : A -> D)
  (a : list A) :
  map2 op (map f a) (map g a) = map (fun x => op (f x) (g x)) a.
Proof.
  induction a as [|x a IH]; auto.
  cbn [map]. now rewrite map2_cons, IH.
Qed.

Lemma mask_select_length {A : Type} (m : list bool) (a : list A) :
  (length (mask_select m a) <= length a)%nat.
Proof.
  revert a. induction m as [|b m IH]; intros [|x a]; simpl; try lia.
  destruct b; simpl; specialize (IH a); lia.
Qed.

(** ** [np.sort] *)

Lemma insert_sorted_perm x a : Permutation (insert_sorted x a) (x :: a).
Proof.
  induction a as [|y t IH]; simpl; auto.
  destruct (Rleb x y); auto.
  rewrite IH. apply perm_swap.
Qed.

Lemma sort_perm a : Permutation (sort a) a.
Proof.
  induction a as [|x t IH]; simpl; auto.
  rewrite insert_sorted_perm. now constructor.
Qed.

Lemma insert_sorted_hd x y a :
  y <= x -> HdRel Rle y a -> HdRel Rle y (insert_sorted x a).
Proof.
  intros Hyx H. destruct a as [|z t]; simpl.
  - now constructor.
  - destruct (Rleb x z); constructor; auto. now inversion H.
Qed.

Lemma insert_sorted_sorted x a :
  Sorted Rle a -> Sorted Rle (insert_sorted x a).
Proof.
  induction a as [|y t IH]; intros H; simpl.
  - repeat constructor.
  - inversion H; subst. destruct (Rleb x y) eqn:E.
    + constructor; auto. constructor. now apply Rleb_true.
    + constructor; auto. apply insert_sorted_hd; auto.
      apply Rleb_false in E. lra.
Qed.

Lemma sort_sorted a : Sorted Rle (sort a).
Proof.
  induction a as [|x t IH]; simpl.
  - constructor.
  - now apply insert_sorted_sorted.
Qed.

Lemma sort_In x a : In x (sort a) <-> In x a.
Proof.
  split; apply Permutation_in; [|symmetry]; apply sort_perm.
Qed.

Lemma sort_length a : length (sort a) = length a.
Proof. apply Permutation_length, sort_perm. Qed.

(** ** The analytic frequency sets as filters of the roots *)

Lemma analytic_w_180_filter L n d epsw :
  analytic_w_180 L n d epsw =
  sort (filter (response_negative n d)
          (map Re (filter (fun z => Reqb (Im z) 0 && Cgeb z epsw)
                          (roots L (test_w_180 n d))))).
Proof.
  unfold analytic_w_180.
  now rewrite map2_map, mask_select_map, map_map, mask_select_map.
Qed.

(** The mask of line 169 where the denominator is not zero, and at a pole,
    where the real part of the quotient is [Re N(j w) / 0.0]. *)
Lemma xnegative_div_by_zero (x : R) : xnegative (div_by_zero x) = Rltb x 0.
Proof.
  unfold div_by_zero.
  destruct (Rltb 0 x) eqn:E1; [|destruct (Rltb x 0) eqn:E2]; simpl; auto.
  apply Rltb_true in E1. symmetry. apply Rltb_false. lra.
Qed.

Lemma response_negative_off_pole (n d : poly) (w : R) :
  cpolyval d (jw w) <> RtoC 0 ->
  response_negative n d w = Rltb (Re (horner n d w)) 0.
Proof.
  intros H. unfold response_negative, real_of_quotient.
  destruct (Ceqb (cpolyval d (jw w)) (RtoC 0)) eqn:E.
  - apply Ceqb_true in E. contradiction.
  - reflexivity.
Qed.

Lemma response_negative_at_pole (n d : poly) (w : R) :
  cpolyval d (jw w) = RtoC 0 ->
  response_negative n d w = Rltb (Re (cpolyval n (jw w))) 0.
Proof.
  intros H. unfold response_negative, real_of_quotient. rewrite H.
  assert (E : Ceqb (RtoC 0) (RtoC 0) = true) by now apply Ceqb_true.
  rewrite E. apply xnegative_div_by_zero.
Qed.

Lemma analytic_wc_filter L n d epsw :
  analytic_wc L n d epsw =
  sort (map Re (filter (fun z => Reqb (Im z) 0 && Cgtb z epsw)
                       (roots L (test_wc n d)))).
Proof.
  unfold analytic_wc. now rewrite map2_map, mask_select_map.
Qed.

Lemma analytic_wstab_filter L n d epsw :
  analytic_wstab L n d epsw =
  sort (filter (fun w => Reqb (Im (RtoC w)) 0 && Rltb epsw w
                         && Rltb 0 (polyval (polyder (test_wstab n d)) w))
          (map Re (filter (fun z => Reqb (Im z) 0 && Rleb 0 (Re z))
                          (roots L (test_wstab n d))))).
Proof.
  unfold analytic_wstab. cbv zeta.
  rewrite (map2_map andb _ _ (roots L _)), mask_select_map.
  set (W := map Re _).
  rewrite (map2_map andb _ _ W), (map_map _ (fun p => Rltb 0 p) W).
  now rewrite (map2_map andb _ _ W), mask_select_map.
Qed.

(** A real number is among the real parts of the entries of [l] with zero
    imaginary part exactly when it is itself an entry. *)
Lemma In_real_parts (P : C -> bool) (l : list C) (w : R) :
  In w (map Re (filter (fun z => Reqb (Im z) 0 && P z) l)) <->
  In (w, 0) l /\ P (w, 0) = true.
Proof.
  rewrite in_map_iff. split.
  - intros ([a b] & <- & H). apply filter_In in H as [H1 H2].
    apply andb_true_iff in H2 as [H2 H3]. apply Reqb_true in H2.
    simpl in H2. subst b. auto.
  - intros [H1 H2]. exists (w, 0). split; auto.
    apply filter_In. split; auto. apply andb_true_iff. split; auto.
    apply Reqb_refl.
Qed.

Lemma Cgeb_real w x : Cgeb (w, 0) x = true <-> x <= w.
Proof.
  unfold Cgeb, Re, Im; simpl. rewrite orb_true_iff, andb_true_iff.
  rewrite Rltb_true, Reqb_true, Rleb_true. lra.
Qed.

Lemma Cgtb_real w x : Cgtb (w, 0) x = true <-> x < w.
Proof.
  unfold Cgtb, Re, Im; simpl. rewrite orb_true_iff, andb_true_iff.
  rewrite Rltb_true, Reqb_true, Rltb_true. lra.
Qed.

(** ** The derivative computed by [np.polyder] *)

Lemma arange_down_length n : length (arange_down n) = n.
Proof. induction n; simpl; auto. Qed.

Lemma polyder_cons c c' t :
  polyder (c :: c' :: t) = c * INR (S (length t)) :: polyder (c' :: t).
Proof.
  unfold polyder.
  change (removelast (c :: c' :: t)) with (c :: removelast (c' :: t)).
  replace (length (c :: c' :: t) - 1)%nat with (S (length t))
    by (simpl; lia).
  replace (length (c' :: t) - 1)%nat with (length t) by (simpl; lia).
  cbn [arange_down]. now rewrite map2_cons.
Qed.

Lemma removelast_length {A : Type} (a : list A) :
  length (removelast a) = (length a - 1)%nat.
Proof.
  rewrite removelast_firstn_len, length_firstn. lia.
Qed.

Lemma polyder_length p : length (polyder p) = (length p - 1)%nat.
Proof.
  unfold polyder. rewrite map2_length.
  - apply removelast_length.
  - now rewrite arange_down_length, removelast_length.
Qed.

Lemma polyder_derivative (p : poly) (x : R) :
  derivable_pt_lim (polyval p) x (polyval (polyder p) x).
Proof.
  induction p as [|c t IH].
  - apply (derivable_pt_lim_ext (fct_cte 0)); [reflexivity|].
    apply derivable_pt_lim_const.
  - destruct t as [|c' t'].
    + apply (derivable_pt_lim_ext (fct_cte c)).
      * intros z. unfold fct_cte, polyval; simpl; ring.
      * apply derivable_pt_lim_const.
    + rewrite polyder_cons, polyval_cons, polyder_length.
      apply (derivable_pt_lim_ext
               (mult_real_fct c (fun y => y ^ length (c' :: t'))
                + polyval (c' :: t'))%F).
      * intros z. rewrite (polyval_cons c).
        unfold plus_fct, mult_real_fct. reflexivity.
      * replace (c * INR (S (length t')) * x ^ (length (c' :: t') - 1))
          with (c * (INR (length (c' :: t')) * x ^ pred (length (c' :: t')))).
        -- apply derivable_pt_lim_plus; auto.
           apply derivable_pt_lim_scal, derivable_pt_lim_pow.
        -- simpl length. rewrite Nat.sub_1_r. ring.
Qed.

(** ** The analytic frequency sets *)

(** With [returnall] set, a single-channel transfer function gets the three
    frequency sets of the analytic path and the margins at them; the call
    does not raise. *)
Lemma stability_margins_siso_all (L : numlib) (tf : TransferFunction)
  (n d : poly) (epsw : R) :
  issiso tf = true ->
  channel00 (num tf) = Ok n ->
  channel00 (den tf) = Ok d ->
  stability_margins L (SysTF tf) true epsw =
  Ok (Tuple6
        (Arr (map (fun w => 1 / cabs (horner n d w))
                  (analytic_w_180 L n d epsw)))
        (Arr (map (fun w => angle (horner n d w) * (180 / PI) + 180)
                  (analytic_wc L n d epsw)))
        (Arr (map (fun w => cabs (cadd (horner n d w) (RtoC 1)))
                  (analytic_wstab L n d epsw)))
        (Arr (analytic_w_180 L n d epsw))
        (Arr (analytic_wc L n d epsw))
        (Arr (analytic_wstab L n d epsw))).
Proof.
  intros Hsiso Hn Hd. unfold stability_margins.
  cbn [dispatch bind crossovers]. rewrite Hsiso. cbn [negb].
  rewrite Hn; cbn [bind]. rewrite Hd; cbn [bind]. reflexivity.
Qed.

Lemma test_w_180_value n d w :
  polyval (test_w_180 n d) w =
  polyval (snd (_polyimsplit n)) w * polyval (fst (_polyimsplit d)) w
  - polyval (fst (_polyimsplit n)) w * polyval (snd (_polyimsplit d)) w.
Proof.
  unfold test_w_180.
  destruct (_polyimsplit n) as [rnum inum].
  destruct (_polyimsplit d) as [rden iden]. simpl fst; simpl snd.
  rewrite polyval_polyadd, !polyval_polymul, polyval_opp. ring.
Qed.

(** The phase crossovers, by the mask of line 169. *)
Lemma analytic_w_180_mask (L : numlib) (n d : poly) (epsw : R) :
  real_roots_ok (test_w_180 n d) (roots L (test_w_180 n d)) ->
  forall w, In w (analytic_w_180 L n d epsw) <->
    polyval (test_w_180 n d) w = 0 /\ epsw <= w /\
    response_negative n d w = true.
Proof.
  intros Hroots w. rewrite analytic_w_180_filter.
  rewrite sort_In, filter_In, In_real_parts.
  rewrite Cgeb_real, (Hroots w). tauto.
Qed.

(** Without a root reported there is no phase crossover. *)
Lemma analytic_w_180_no_roots (L : numlib) (n d : poly) (epsw : R) :
  roots L (test_w_180 n d) = [] -> analytic_w_180 L n d epsw = [].
Proof.
  intros H. unfold analytic_w_180. rewrite H. reflexivity.
Qed.

(** C3, amended: when the polynomial [Ni Dr - Nr Di] is not identically
    zero, so that the root finder lists its real zeros, the phase crossovers
    of the analytic path are in ascending order and are exactly the real
    zeros [w >= epsw] of the polynomial at which the real part of the
    computed response is negative: where the denominator is not zero at
    [j w], the real part of [G(j w)] is negative; at a pole, where the
    quotient of lines 164-165 is infinite or NaN, the real part of the
    numerator is negative.  The polynomial takes the value
    [Ni Dr - Nr Di], and the set is the fourth array returned. *)
Theorem analytic_w_180_exact (L : numlib) (n d : poly) (epsw : R) :
  real_roots_ok (test_w_180 n d) (roots L (test_w_180 n d)) ->
  Sorted Rle (analytic_w_180 L n d epsw) /\
  (forall w, cpolyval d (jw w) <> RtoC 0 ->
     (In w (analytic_w_180 L n d epsw) <->
      polyval (test_w_180 n d) w = 0 /\ epsw <= w /\
      Re (horner n d w) < 0)) /\
  (forall w, cpolyval d (jw w) = RtoC 0 ->
     (In w (analytic_w_180 L n d epsw) <->
      polyval (test_w_180 n d) w = 0 /\ epsw <= w /\
      Re (cpolyval n (jw w)) < 0)) /\
  (forall w, polyval (test_w_180 n d) w =
     polyval (snd (_polyimsplit n)) w * polyval (fst (_polyimsplit d)) w
     - polyval (fst (_polyimsplit n)) w * polyval (snd (_polyimsplit d)) w) /\
  returns_w_180 L (tf_siso n d) epsw (analytic_w_180 L n d epsw).
Proof.
  intros Hroots.
  split; [rewrite analytic_w_180_filter; apply sort_sorted|].
  split; [|split; [|split; [apply test_w_180_value|]]].
  - intros w Hd. rewrite (analytic_w_180_mask L n d epsw Hroots w).
    rewrite (response_negative_off_pole n d w Hd), Rltb_true. tauto.
  - intros w Hd. rewrite (analytic_w_180_mask L n d epsw Hroots w).
    rewrite (response_negative_at_pole n d w Hd), Rltb_true. tauto.
  - eexists. split; [now apply stability_margins_siso_all|reflexivity].
Qed.

Lemma test_wstab_value n d w :
  polyval (test_wstab n d) w =
  polyval (polyder (test_wstabn n d)) w * polyval (test_wstabd n d) w
  - polyval (polyder (test_wstabd n d)) w * polyval (test_wstabn n d) w.
Proof.
  unfold test_wstab. now rewrite polyval_polysub, !polyval_polymul.
Qed.

(** The two polynomials combined are the denominator [|D(j w)|^2] and the
    numerator [|N(j w) + D(j w)|^2] of the squared distance to -1. *)
Lemma test_wstabd_value n d w :
  polyval (test_wstabd n d) w =
  Re (cpolyval d (jw w)) * Re (cpolyval d (jw w))
  + Im (cpolyval d (jw w)) * Im (cpolyval d (jw w)).
Proof.
  unfold test_wstabd.
  destruct (polyimsplit_values d w) as (Hr & Hi).
  destruct (_polyimsplit d) as [rden iden]. simpl fst in *; simpl snd in *.
  now rewrite polyval_polyadd, !polyval_polysqr, Hr, Hi.
Qed.

Lemma test_wstabn_value n d w :
  polyval (test_wstabn n d) w =
  Re (cadd (cpolyval n (jw w)) (cpolyval d (jw w)))
  * Re (cadd (cpolyval n (jw w)) (cpolyval d (jw w)))
  + Im (cadd (cpolyval n (jw w)) (cpolyval d (jw w)))
    * Im (cadd (cpolyval n (jw w)) (cpolyval d (jw w))).
Proof.
  unfold test_wstabn.
  destruct (polyimsplit_values d w) as (Hr & Hi).
  destruct (polyimsplit_values n w) as (Hr' & Hi').
  destruct (_polyimsplit d) as [rden iden].
  destruct (_polyimsplit n) as [rnum inum]. simpl fst in *; simpl snd in *.
  rewrite polyval_polyadd, !polyval_polysqr, !polyval_polyadd.
  now rewrite Hr, Hi, Hr', Hi'.
Qed.

Lemma analytic_wstab_members (L : numlib) (n d : poly) (epsw : R) :
  real_roots_ok (test_wstab n d) (roots L (test_wstab n d)) ->
  forall w, In w (analytic_wstab L n d epsw) <->
     polyval (test_wstab n d) w = 0 /\ 0 <= w /\ epsw < w /\
     0 < polyval (polyder (test_wstab n d)) w.
Proof.
  intros Hroots w. rewrite analytic_wstab_filter.
  rewrite sort_In, filter_In, In_real_parts.
  rewrite !andb_true_iff, Reqb_true, !Rltb_true, Rleb_true, (Hroots w).
  unfold Im, Re, RtoC; simpl. tauto.
Qed.

(** C2, amended: when the root finder lists the real zeros of the combined
    polynomial [T = n' d - d' n], the stability-margin candidates of the
    analytic path are, in ascending order, exactly the real zeros [w >= 0] of
    [T] with [w > epsw] at which the first derivative of [T] is positive. *)
Theorem analytic_wstab_exact (L : numlib) (n d : poly) (epsw : R) :
  real_roots_ok (test_wstab n d) (roots L (test_wstab n d)) ->
  Sorted Rle (analytic_wstab L n d epsw) /\
  (forall w, In w (analytic_wstab L n d epsw) <->
     polyval (test_wstab n d) w = 0 /\ 0 <= w /\ epsw < w /\
     0 < polyval (polyder (test_wstab n d)) w) /\
  (forall w,
     derivable_pt_lim (polyval (test_wstab n d)) w
       (polyval (polyder (test_wstab n d)) w)) /\
  (forall w, polyval (test_wstab n d) w =
     polyval (polyder (test_wstabn n d)) w * polyval (test_wstabd n d) w
     - polyval (polyder (test_wstabd n d)) w * polyval (test_wstabn n d) w) /\
  returns_wstab L (tf_siso n d) epsw (analytic_wstab L n d epsw).
Proof.
  intros Hroots.
  split; [rewrite analytic_wstab_filter; apply sort_sorted|].
  split; [now apply analytic_wstab_members|].
  split; [intros w; apply polyder_derivative|].
  split; [apply test_wstab_value|].
  eexists. split; [now apply stability_margins_siso_all|reflexivity].
Qed.

(** ** Evaluation on coefficient lists given in full *)

Lemma poly1d_nz c t : c <> 0 -> poly1d (c :: t) = c :: t.
Proof.
  intros H. unfold poly1d; simpl. now rewrite (proj2 (Reqb_false c 0)).
Qed.

Lemma poly1d_z c t : c = 0 -> poly1d (c :: t) = poly1d t.
Proof.
  intros H. unfold poly1d; simpl. now rewrite (proj2 (Reqb_true c 0)).
Qed.

Lemma poly1d_nil : poly1d [] = [0].
Proof. reflexivity. Qed.

Ltac Rcbn :=
  cbn [_polyimsplit convolve
       scale pad_front arange_down zeros_like assign_back4 assign_every4
       map2 map combine fst snd rev app length repeat removelast
       Nat.max Nat.sub Nat.add INR].

Ltac poly_step :=
  first [ rewrite poly1d_nz by lra
        | rewrite poly1d_z by lra
        | rewrite poly1d_nil
        | progress Rcbn
        | progress unfold polyadd, polysub, polyder ].

Ltac poly_eval :=
  unfold test_w_180, test_wc, test_wstab, test_wstabn, test_wstabd,
         _polysqr, polymul;
  repeat poly_step.

Ltac list_eq := repeat (apply f_equal2; [lra|]); reflexivity.

(** Booleans of comparisons between numbers given in full. *)
Ltac Rcond :=
  match goal with
  | |- context [Reqb ?a ?b] =>
      first [ rewrite (proj2 (Reqb_true a b)) by lra
            | rewrite (proj2 (Reqb_false a b)) by lra ]
  | |- context [Rltb ?a ?b] =>
      first [ rewrite (proj2 (Rltb_true a b)) by lra
            | rewrite (proj2 (Rltb_false a b)) by lra ]
  | |- context [Rleb ?a ?b] =>
      first [ rewrite (proj2 (Rleb_true a b)) by lra
            | rewrite (proj2 (Rleb_false a b)) by lra ]
  end.

(** ** The resonant system *)

Lemma resonant_wstabd :
  test_wstabd resonant_num resonant_den = [1; 0; -18; 0; 81].
Proof. unfold resonant_num, resonant_den. poly_eval. list_eq. Qed.

Lemma resonant_wstabn :
  test_wstabn resonant_num resonant_den = [1; 0; -8; 0; 16].
Proof. unfold resonant_num, resonant_den. poly_eval. list_eq. Qed.

Lemma resonant_wstab :
  test_wstab resonant_num resonant_den = [0; 0; -20; 0; 260; 0; -720; 0].
Proof.
  unfold test_wstab. rewrite resonant_wstabd, resonant_wstabn.
  poly_eval. list_eq.
Qed.

Lemma resonant_roots_ok :
  real_roots_ok (test_wstab resonant_num resonant_den)
    (roots resonant_lib (test_wstab resonant_num resonant_den)).
Proof.
  intros w. rewrite resonant_wstab. unfold polyval; simpl. split.
  - intros H. repeat (destruct H as [H|H]; [injection H as <-; lra|]).
    contradiction.
  - intros H.
    assert (E : w * ((w - 2) * ((w + 2) * ((w - 3) * (w + 3)))) = 0).
    { apply Rmult_eq_reg_l with (-20); [|lra].
      rewrite Rmult_0_r, <- H. ring. }
    repeat (apply Rmult_integral in E as [E|E]);
      [ replace w with 0 by lra | replace w with 2 by lra
      | replace w with (-2) by lra | replace w with 3 by lra
      | replace w with (-3) by lra ]; tauto.
Qed.

Lemma wstab_derivative_witness :
  In 2 (analytic_wstab resonant_lib resonant_num resonant_den epsw_default).
Proof.
  apply (analytic_wstab_exact resonant_lib resonant_num resonant_den
           epsw_default resonant_roots_ok).
  rewrite resonant_wstab. unfold epsw_default, polyder, polyval. Rcbn.
  cbn [fold_left]. lra.
Defined.

(** C2 as it is stated fails: for [G(s) = -5 / (s^2 + 9)] the frequency 2, at
    which the Nyquist curve meets -1, is a stability-margin candidate of
    the analytic path, and the second derivative of the combined polynomial
    is negative there. *)
Lemma wstab_second_derivative_counterexample :
  real_roots_ok (test_wstab resonant_num resonant_den)
    (roots resonant_lib (test_wstab resonant_num resonant_den)) /\
  In 2 (analytic_wstab resonant_lib resonant_num resonant_den epsw_default) /\
  ~ 0 < polyval (polyder (polyder (test_wstab resonant_num resonant_den))) 2.
Proof.
  split; [apply resonant_roots_ok|]. split.
  - apply (analytic_wstab_members resonant_lib resonant_num resonant_den
             epsw_default resonant_roots_ok).
    rewrite resonant_wstab. unfold epsw_default, polyder, polyval. Rcbn.
    cbn [fold_left]. lra.
  - rewrite resonant_wstab. unfold polyder, polyval. Rcbn.
    cbn [fold_left]. lra.
Qed.

(** ** The system with an integrator and a double lag *)

Lemma lag_w_180 : test_w_180 lag_num lag_den = [10; 0; -10; 0].
Proof. unfold lag_num, lag_den. poly_eval. list_eq. Qed.

Lemma lag_wc : test_wc lag_num lag_den = [-1; 0; -2; 0; -1; 0; 100].
Proof. unfold lag_num, lag_den. poly_eval. list_eq. Qed.

Lemma roots_table_head q l tab : roots_table ((q, l) :: tab) q = l.
Proof.
  simpl. destruct (list_eq_dec Req_dec_T q q); congruence.
Qed.

Lemma roots_table_skip p q l tab :
  p <> q -> roots_table ((q, l) :: tab) p = roots_table tab p.
Proof.
  intros H. simpl. destruct (list_eq_dec Req_dec_T p q); congruence.
Qed.

Lemma lag_roots_w_180 :
  roots lag_lib (test_w_180 lag_num lag_den) = [(1, 0); (-1, 0); (0, 0)].
Proof.
  rewrite lag_w_180. apply roots_table_head.
Qed.

Lemma lag_roots_wc :
  roots lag_lib (test_wc lag_num lag_den) =
  [(2, 0); (-2, 0); (1, 2); (1, -2); (-1, 2); (-1, -2)].
Proof.
  rewrite lag_wc. unfold lag_lib, lib_of_roots, roots.
  rewrite roots_table_skip by discriminate. apply roots_table_head.
Qed.

Lemma lag_roots_ok :
  real_roots_ok (test_w_180 lag_num lag_den)
    (roots lag_lib (test_w_180 lag_num lag_den)).
Proof.
  intros w. rewrite lag_roots_w_180, lag_w_180. unfold polyval; simpl. split.
  - intros H. repeat (destruct H as [H|H]; [injection H as <-; lra|]).
    contradiction.
  - intros H.
    assert (E : w * ((w - 1) * (w + 1)) = 0).
    { apply Rmult_eq_reg_l with 10; [|lra].
      rewrite Rmult_0_r, <- H. ring. }
    repeat (apply Rmult_integral in E as [E|E]);
      [ replace w with 0 by lra | replace w with 1 by lra
      | replace w with (-1) by lra ]; tauto.
Qed.


(** ** The reduction to the worst case *)

Lemma fold_Rmin_le t x : fold_left Rmin t x <= x.
Proof.
  revert x. induction t as [|y t IH]; intros x; simpl; [lra|].
  eapply Rle_trans; [apply IH|apply Rmin_l].
Qed.

Lemma fold_Rmin_lower t x y : In y t -> fold_left Rmin t x <= y.
Proof.
  revert x. induction t as [|z t IH]; intros x H; [contradiction|].
  destruct H as [H|H]; simpl.
  - subst z. eapply Rle_trans; [apply fold_Rmin_le|apply Rmin_r].
  - now apply IH.
Qed.

Lemma fold_Rmin_In t x : In (fold_left Rmin t x) (x :: t).
Proof.
  revert x. induction t as [|y t IH]; intros x; simpl; auto.
  destruct (IH (Rmin x y)) as [H|H]; auto.
  unfold Rmin in H at 1. destruct (Rle_dec x y); auto.
Qed.

Lemma amin_minimum x t :
  exists v, amin (x :: t) = Ok v /\ is_minimum (x :: t) v.
Proof.
  exists (fold_left Rmin t x). split; auto. split.
  - apply fold_Rmin_In.
  - intros y [<-|H]; [apply fold_Rmin_le|now apply fold_Rmin_lower].
Qed.

Lemma first_index_of_In v m :
  In v m -> exists i, first_index_of v m = Some i.
Proof.
  induction m as [|x t IH]; intros H; [contradiction|]. simpl.
  destruct (Reqb x v) eqn:E; eauto.
  destruct H as [H|H]; [apply Reqb_false in E; congruence|].
  destruct (IH H) as [i ->]. simpl. eauto.
Qed.

Lemma mask_at_first_index (v : R) (m w : list R) (i : nat) :
  length m = length w -> first_index_of v m = Some i ->
  exists f, nth_error w i = Some f /\
            getitem (mask_select (map (fun x => Reqb x v) m) w) 0%nat = Ok f.
Proof.
  revert w i. induction m as [|x t IH]; intros [|y w] i Hlen Hi;
    try discriminate.
  simpl in Hi |- *. destruct (Reqb x v).
  - injection Hi as <-. exists y. auto.
  - destruct (first_index_of v t) as [j|] eqn:E; try discriminate.
    injection Hi as <-. apply (IH w j); auto.
Qed.

(** Both reduced entries of a margin are computed without an exception and
    are the ones the specification names. *)
Lemma reduction_consistent m w :
  length m = length w ->
  exists value freq,
    min_value m = Ok value /\ min_frequency m w = Ok freq /\
    consistent_reduction m w (Num value) (Num freq).
Proof.
  intros Hlen. destruct m as [|x t].
  - destruct w; try discriminate. exists None, None. simpl. auto.
  - destruct w as [|y w]; try discriminate.
    destruct (amin_minimum x t) as (v & Hv & Hmin).
    destruct (first_index_of_In v (x :: t) (proj1 Hmin)) as [i Hi].
    destruct (mask_at_first_index v (x :: t) (y :: w) i Hlen Hi)
      as (f & Hf & Hget).
    exists (Some v), (Some f).
    unfold min_value, min_frequency. cbn [length]. rewrite Hv. cbn [bind].
    rewrite Hget. cbn [bind]. repeat split; auto.
    exists v, i, f. auto.
Qed.


(** ** [phase_crossover_frequencies] *)

Lemma filter_map_filter {A B : Type} (f : B -> bool) (g : A -> B)
  (h : A -> bool) (l : list A) :
  filter f (map g (filter h l)) = map g (filter (fun z => h z && f (g z)) l).
Proof.
  induction l as [|x l IH]; simpl; auto.
  destruct (h x); simpl; auto.
  destruct (f (g x)); simpl; now rewrite IH.
Qed.

Lemma pcf_value (L : numlib) (s : sysdata) (tf : TransferFunction)
  (n d : poly) :
  _convertToTransferFunction s = Ok tf ->
  channel00 (num tf) = Ok n ->
  channel00 (den tf) = Ok d ->
  phase_crossover_frequencies L s =
  Ok (crossing_frequencies L n d,
      map (fun f => Re (horner n d f)) (crossing_frequencies L n d)).
Proof.
  intros Hs Hn Hd. unfold phase_crossover_frequencies.
  rewrite Hs; cbn [bind]. rewrite Hn; cbn [bind]. rewrite Hd; cbn [bind].
  rewrite !mask_select_map, filter_map_filter. reflexivity.
Qed.

Lemma crossing_frequencies_nonneg L n d :
  Forall (fun f => 0 <= f) (crossing_frequencies L n d).
Proof.
  apply Forall_forall. intros f Hf. unfold crossing_frequencies in Hf.
  apply in_map_iff in Hf as (z & <- & Hz).
  apply filter_In in Hz as [_ Hz]. apply andb_true_iff in Hz as [_ Hz].
  now apply Rleb_true.
Qed.

(** C10: a system that converts to a transfer function with a channel
    (0, 0), whatever its numbers of inputs and outputs, gets a result and no
    exception, and the result is the one of the single-channel system made
    of the numerator and the denominator of channel (0, 0). *)
Theorem pcf_reads_channel00_only (L : numlib) (s : sysdata)
  (tf : TransferFunction) (n d : poly) :
  _convertToTransferFunction s = Ok tf ->
  channel00 (num tf) = Ok n ->
  channel00 (den tf) = Ok d ->
  (exists freq gain, phase_crossover_frequencies L s = Ok (freq, gain)) /\
  phase_crossover_frequencies L s =
  phase_crossover_frequencies L (SysTF (tf_siso n d)).
Proof.
  intros Hs Hn Hd.
  rewrite (pcf_value L s tf n d Hs Hn Hd).
  rewrite (pcf_value L (SysTF (tf_siso n d)) (tf_siso n d) n d);
    try reflexivity.
  split; eauto.
Qed.

Lemma pcf_reads_channel00_only_witness :
  issiso mimo_tf = false /\
  phase_crossover_frequencies doc_lib (SysTF mimo_tf) =
  phase_crossover_frequencies doc_lib (SysTF (tf_siso doc_num doc_den)).
Proof.
  split; [reflexivity|].
  apply (pcf_reads_channel00_only doc_lib (SysTF mimo_tf) mimo_tf
           doc_num doc_den); reflexivity.
Defined.

(** The analytic path of [stability_margins] rejects the same system. *)
Lemma stability_margins_rejects_mimo (L : numlib) (returnall : bool)
  (epsw : R) :
  stability_margins L (SysTF mimo_tf) returnall epsw = Raise ValueError_siso.
Proof. reflexivity. Qed.

(** C7, amended: when [phase_crossover_frequencies] returns, its two arrays
    have one length, the frequencies are non-negative, and they are the
    real non-negative roots in the order in which the root finder lists
    them; they are not sorted. *)
Theorem pcf_shape (L : numlib) (s : sysdata) (freq gain : list R) :
  phase_crossover_frequencies L s = Ok (freq, gain) ->
  length freq = length gain /\
  Forall (fun f => 0 <= f) freq /\
  exists n d, freq = crossing_frequencies L n d.
Proof.
  intros H.
  destruct (_convertToTransferFunction s) as [tf|e] eqn:Hs;
    [|unfold phase_crossover_frequencies in H; rewrite Hs in H;
      discriminate].
  destruct (channel00 (num tf)) as [n|e] eqn:Hn;
    [|unfold phase_crossover_frequencies in H; rewrite Hs in H;
      cbn [bind] in H; rewrite Hn in H; discriminate].
  destruct (channel00 (den tf)) as [d|e] eqn:Hd;
    [|unfold phase_crossover_frequencies in H; rewrite Hs in H;
      cbn [bind] in H; rewrite Hn in H; cbn [bind] in H; rewrite Hd in H;
      discriminate].
  rewrite (pcf_value L s tf n d Hs Hn Hd) in H. injection H as <- <-.
  split; [now rewrite length_map|].
  split; [apply crossing_frequencies_nonneg|eauto].
Qed.

(** ** The example of the docstring *)

Ltac Ccbv :=
  cbv [crossing_poly cpolymul cpoly1d powers_down cpolyadd pad_front
       seq rev app length map2 map combine fst snd cpow cmul cneg cadd RtoC Ci
       Re Im ctrim_zeros_f Ceqb cconvolve andb repeat Nat.max Nat.sub].

Lemma doc_crossing_poly : crossing_poly doc_num doc_den = [1; 0; -3; 0].
Proof.
  unfold doc_num, doc_den. Ccbv. repeat (Rcond; Ccbv). list_eq.
Qed.

Lemma sqrt3_sqr : sqrt 3 * sqrt 3 = 3.
Proof. apply sqrt_sqrt. lra. Qed.

Lemma sqrt3_pos : 0 < sqrt 3.
Proof. apply sqrt_lt_R0. lra. Qed.

Lemma doc_zeros (w : R) :
  polyval (crossing_poly doc_num doc_den) w = 0 <->
  w = sqrt 3 \/ w = - sqrt 3 \/ w = 0.
Proof.
  rewrite doc_crossing_poly.
  assert (Hv : polyval [1; 0; -3; 0] w = w * ((w - sqrt 3) * (w + sqrt 3))).
  { replace (w * ((w - sqrt 3) * (w + sqrt 3)))
      with (w * w * w - sqrt 3 * sqrt 3 * w) by ring.
    rewrite sqrt3_sqr. unfold polyval; simpl. ring. }
  rewrite Hv. split.
  - intros E. repeat (apply Rmult_integral in E as [E|E]); lra.
  - intros [ -> | [ -> | -> ] ]; ring.
Qed.

(** The real part of the response in terms of the split polynomials. *)
Lemma horner_real_part (n d : poly) (w : R) :
  Re (horner n d w) =
  (polyval (fst (_polyimsplit n)) w * polyval (fst (_polyimsplit d)) w
   + polyval (snd (_polyimsplit n)) w * polyval (snd (_polyimsplit d)) w)
  / (polyval (fst (_polyimsplit d)) w * polyval (fst (_polyimsplit d)) w
     + polyval (snd (_polyimsplit d)) w * polyval (snd (_polyimsplit d)) w).
Proof.
  destruct (polyimsplit_values n w) as (-> & ->).
  destruct (polyimsplit_values d w) as (-> & ->).
  reflexivity.
Qed.

Lemma doc_gain_sqrt3 : Re (horner doc_num doc_den (sqrt 3)) = -1 / 2.
Proof.
  pose proof sqrt3_sqr as Hs. rewrite horner_real_part.
  unfold doc_num, doc_den, polyval. Rcbn. cbn [fold_left].
  set (s := sqrt 3) in *.
  replace ((((0 * s + 1 * 0) * s + 2 * -1) * s + 3 * 0) * s + 4 * 1)
    with (4 - 2 * (s * s)) by ring.
  replace ((((0 * s + 1 * -1) * s + 2 * 0) * s + 3 * 1) * s + 4 * 0)
    with (s * (3 - s * s)) by ring.
  rewrite Hs. replace (s * (3 - 3)) with 0 by ring. lra.
Qed.

Lemma doc_gain_0 : Re (horner doc_num doc_den 0) = 1 / 4.
Proof.
  rewrite horner_real_part.
  unfold doc_num, doc_den, polyval. Rcbn. cbn [fold_left]. lra.
Qed.

Lemma crossing_frequencies_In (L : numlib) (n d : poly) (w : R) :
  In w (crossing_frequencies L n d) <->
  In (w, 0) (roots L (crossing_poly n d)) /\ 0 <= w.
Proof.
  unfold crossing_frequencies.
  rewrite (In_real_parts (fun z => Rleb 0 (Re z))).
  unfold Re; simpl. now rewrite Rleb_true.
Qed.

Lemma crossing_frequencies_NoDup (L : numlib) (n d : poly) :
  NoDup (roots L (crossing_poly n d)) -> NoDup (crossing_frequencies L n d).
Proof.
  intros H. unfold crossing_frequencies.
  apply NoDup_map_NoDup_ForallPairs; [|now apply NoDup_filter].
  intros [a b] [a' b'] Ha Hb E.
  apply filter_In in Ha as [_ Ha]. apply filter_In in Hb as [_ Hb].
  apply andb_true_iff in Ha as [Ha _]. apply andb_true_iff in Hb as [Hb _].
  apply Reqb_true in Ha, Hb. unfold Re, Im in *; simpl in *. congruence.
Qed.

Lemma combine_map_self {A B : Type} (g : A -> B) (l : list A) :
  combine l (map g l) = map (fun x => (x, g x)) l.
Proof. induction l as [|x l IH]; simpl; congruence. Qed.

Lemma NoDup_sqrt3_0 : NoDup [sqrt 3; 0].
Proof.
  pose proof sqrt3_pos. repeat constructor; simpl; intuition lra.
Qed.

(** C5: for [1 / (s^3 + 2 s^2 + 3 s + 4)], with a root finder that lists
    each real zero of the crossing polynomial [w^3 - 3 w] once,
    [phase_crossover_frequencies] returns two crossings: the frequency
    [sqrt 3] with the gain -1/2 and the frequency 0 with the gain 1/4. *)
Theorem pcf_docstring_example (L : numlib) :
  real_roots_ok (crossing_poly doc_num doc_den)
    (roots L (crossing_poly doc_num doc_den)) ->
  NoDup (roots L (crossing_poly doc_num doc_den)) ->
  exists freq gain,
    phase_crossover_frequencies L (SysTF (tf_siso doc_num doc_den))
    = Ok (freq, gain) /\
    Permutation (combine freq gain) [(sqrt 3, -1 / 2); (0, 1 / 4)].
Proof.
  intros Hroots Hnodup.
  rewrite (pcf_value L _ (tf_siso doc_num doc_den) doc_num doc_den);
    try reflexivity.
  do 2 eexists. split; [reflexivity|].
  rewrite combine_map_self, <- doc_gain_sqrt3, <- doc_gain_0.
  apply (Permutation_map (fun x => (x, Re (horner doc_num doc_den x)))
           (l' := [sqrt 3; 0])).
  apply NoDup_Permutation.
  - now apply crossing_frequencies_NoDup.
  - apply NoDup_sqrt3_0.
  - intros w. rewrite crossing_frequencies_In, (Hroots w), doc_zeros.
    pose proof sqrt3_pos. simpl. intuition lra.
Qed.

Lemma doc_roots_ok :
  real_roots_ok (crossing_poly doc_num doc_den)
    (roots doc_lib (crossing_poly doc_num doc_den)).
Proof.
  intros w. rewrite doc_zeros. simpl. split.
  - intros [H|[H|[H|[]]]]; injection H as <-; auto.
  - intros [ -> | [ -> | -> ] ]; auto.
Qed.

Lemma doc_roots_NoDup :
  NoDup (roots doc_lib (crossing_poly doc_num doc_den)).
Proof.
  pose proof sqrt3_pos. simpl.
  repeat constructor; simpl; intros H';
    repeat (destruct H' as [H'|H']; [injection H' as H'; lra|]); auto.
Qed.

Lemma pcf_docstring_example_witness :
  exists freq gain,
    phase_crossover_frequencies doc_lib (SysTF (tf_siso doc_num doc_den))
    = Ok (freq, gain) /\
    Permutation (combine freq gain) [(sqrt 3, -1 / 2); (0, 1 / 4)].
Proof.
  apply (pcf_docstring_example doc_lib doc_roots_ok doc_roots_NoDup).
Defined.

Lemma doc_crossing_frequencies :
  crossing_frequencies doc_lib doc_num doc_den = [sqrt 3; 0].
Proof.
  pose proof sqrt3_pos.
  unfold crossing_frequencies. simpl. unfold Im, Re; simpl.
  repeat Rcond. reflexivity.
Qed.

Lemma doc_pcf :
  phase_crossover_frequencies doc_lib (SysTF (tf_siso doc_num doc_den))
  = Ok ([sqrt 3; 0], [-1 / 2; 1 / 4]).
Proof.
  rewrite (pcf_value doc_lib _ (tf_siso doc_num doc_den) doc_num doc_den);
    try reflexivity.
  rewrite doc_crossing_frequencies. cbn [map].
  now rewrite doc_gain_sqrt3, doc_gain_0.
Qed.

Lemma pcf_shape_witness :
  length [sqrt 3; 0] = length [-1 / 2; 1 / 4] /\
  Forall (fun f => 0 <= f) [sqrt 3; 0].
Proof.
  destruct (pcf_shape doc_lib (SysTF (tf_siso doc_num doc_den))
              [sqrt 3; 0] [-1 / 2; 1 / 4] doc_pcf) as (H1 & H2 & _).
  split; assumption.
Defined.

(** C7 as it is stated fails: on the example of the docstring, with the
    root finder answering as the docstring reports, the frequencies come
    out as [sqrt 3, 0], which is not ascending. *)
Lemma pcf_not_sorted_counterexample :
  real_roots_ok (crossing_poly doc_num doc_den)
    (roots doc_lib (crossing_poly doc_num doc_den)) /\
  exists freq gain,
    phase_crossover_frequencies doc_lib (SysTF (tf_siso doc_num doc_den))
    = Ok (freq, gain) /\
    ~ Sorted Rle freq.
Proof.
  split; [apply doc_roots_ok|].
  exists [sqrt 3; 0], [-1 / 2; 1 / 4]. split; [apply doc_pcf|].
  intros H. inversion H as [|a l Hs Hh]; subst.
  inversion Hh as [|b l' Hle]; subst.
  pose proof sqrt3_pos. lra.
Qed.

(** ** [margin] on a single-channel transfer function *)

Lemma cpolyval_split (p : poly) (w : R) :
  cpolyval p (jw w) =
  (polyval (fst (_polyimsplit p)) w, polyval (snd (_polyimsplit p)) w).
Proof.
  destruct (polyimsplit_values p w) as (-> & ->).
  unfold Re, Im. now destruct (cpolyval p (jw w)).
Qed.

(** The third entry of [margin] is drawn from the phase crossovers [w_180]
    and the fourth from the gain crossovers [wc]. *)
Lemma margin_siso (L : numlib) (n d : poly) (gm pm wg wp : option R) :
  let w_180 := analytic_w_180 L n d epsw_default in
  let wc := analytic_wc L n d epsw_default in
  let GM := map (fun w => 1 / cabs (horner n d w)) w_180 in
  let PM := map (fun w => angle (horner n d w) * (180 / PI) + 180) wc in
  min_value GM = Ok gm ->
  min_value PM = Ok pm ->
  min_frequency GM w_180 = Ok wg ->
  min_frequency PM wc = Ok wp ->
  margin L (OneArg (SysTF (tf_siso n d))) = Ok (Num gm, Num pm, Num wg, Num wp).
Proof.
  intros w_180 wc GM PM Hgm Hpm Hwg Hwp.
  unfold margin, stability_margins.
  cbn [dispatch bind crossovers tf_siso issiso inputs outputs num den
       Nat.eqb andb negb channel00 getitem nth_error].
  fold w_180 wc GM PM.
  set (wstab := analytic_wstab L n d epsw_default).
  set (SM := map (fun w => cabs (cadd (horner n d w) (RtoC 1))) wstab).
  destruct (reduction_consistent SM wstab) as (sm & ws & Hsm & Hws & _);
    [apply length_map|].
  rewrite Hgm, Hpm, Hsm, Hwg, Hwp, Hws. reflexivity.
Qed.

Lemma lag_den_1 : cpolyval lag_den (jw 1) = (-2, 0).
Proof.
  rewrite cpolyval_split. unfold lag_den, polyval. Rcbn.
  cbn [fold_left]. f_equal; lra.
Qed.

Lemma lag_den_1_nonzero : cpolyval lag_den (jw 1) <> RtoC 0.
Proof.
  rewrite lag_den_1. unfold RtoC. intros H. injection H as H. lra.
Qed.

Lemma lag_response_1 : horner lag_num lag_den 1 = (-5, 0).
Proof.
  unfold horner. rewrite !cpolyval_split.
  unfold lag_num, lag_den, polyval, cdiv. Rcbn.
  cbn [fold_left Re Im fst snd]. f_equal; lra.
Qed.

Lemma lag_response_2 : horner lag_num lag_den 2 = (-4 / 5, 3 / 5).
Proof.
  unfold horner. rewrite !cpolyval_split.
  unfold lag_num, lag_den, polyval, cdiv. Rcbn.
  cbn [fold_left Re Im fst snd]. f_equal; lra.
Qed.

Lemma lag_analytic_w_180 :
  analytic_w_180 lag_lib lag_num lag_den epsw_default = [1].
Proof.
  rewrite analytic_w_180_filter, lag_roots_w_180.
  unfold Cgeb, epsw_default. cbn [filter Re Im fst snd].
  repeat (Rcond; cbn [filter andb orb map Re Im fst snd]).
  rewrite (response_negative_off_pole _ _ 1 lag_den_1_nonzero).
  rewrite lag_response_1. cbn [Re fst]. Rcond. reflexivity.
Qed.

Lemma lag_analytic_wc :
  analytic_wc lag_lib lag_num lag_den epsw_default = [2].
Proof.
  rewrite analytic_wc_filter, lag_roots_wc.
  unfold Cgtb, epsw_default. cbn [filter Re Im fst snd].
  repeat (Rcond; cbn [filter andb orb map Re Im fst snd]).
  reflexivity.
Qed.

Lemma cabs_lag_1 : cabs (horner lag_num lag_den 1) = 5.
Proof.
  rewrite lag_response_1. unfold cabs, Re, Im; simpl.
  apply sqrt_lem_1; lra.
Qed.

Lemma cabs_lag_2 : cabs (horner lag_num lag_den 2) = 1.
Proof.
  rewrite lag_response_2. unfold cabs, Re, Im; simpl.
  apply sqrt_lem_1; lra.
Qed.

(** C6, the code at [G(s) = 10 / (s (s + 1)^2)]: the third entry of the
    tuple of [margin] is the frequency 1, where the response is -5 (the
    phase crossover, at which the gain margin 1/5 is measured), and the
    fourth entry is the frequency 2, where the magnitude is 1 (the gain
    crossover, at which the phase margin is measured). *)
Theorem margin_frequency_order :
  margin lag_lib (OneArg (SysTF (tf_siso lag_num lag_den)))
  = Ok (Num (Some (1 / 5)),
        Num (Some (angle (horner lag_num lag_den 2) * (180 / PI) + 180)),
        Num (Some 1),
        Num (Some 2)) /\
  horner lag_num lag_den 1 = (-5, 0) /\
  cabs (horner lag_num lag_den 2) = 1.
Proof.
  split; [|split; [apply lag_response_1|apply cabs_lag_2]].
  apply margin_siso; rewrite ?lag_analytic_w_180, ?lag_analytic_wc;
    cbn [map]; rewrite ?cabs_lag_1;
    unfold min_value, min_frequency, amin;
    cbn [length fold_left bind map mask_select];
    rewrite ?Reqb_refl; reflexivity.
Qed.

Lemma analytic_w_180_witness :
  In 1 (analytic_w_180 lag_lib lag_num lag_den epsw_default).
Proof.
  destruct (analytic_w_180_exact lag_lib lag_num lag_den epsw_default
              lag_roots_ok) as (_ & H & _).
  apply (H 1 lag_den_1_nonzero).
  rewrite lag_w_180, lag_response_1.
  unfold epsw_default, polyval, Re; simpl. lra.
Defined.

(** ** The double integrator *)

Lemma integrator2_w_180 :
  test_w_180 integrator2_num integrator2_den = [0; 0; 0].
Proof. unfold integrator2_num, integrator2_den. poly_eval. list_eq. Qed.

Lemma integrator2_den_1 : cpolyval integrator2_den (jw 1) = (-1, 0).
Proof.
  rewrite cpolyval_split. unfold integrator2_den, polyval. Rcbn.
  cbn [fold_left]. f_equal; lra.
Qed.

Lemma integrator2_response_1 :
  horner integrator2_num integrator2_den 1 = (-1, 0).
Proof.
  unfold horner. rewrite !cpolyval_split.
  unfold integrator2_num, integrator2_den, polyval, cdiv. Rcbn.
  cbn [fold_left Re Im fst snd]. f_equal; lra.
Qed.

(** C3, the claim as it stands fails at [G(s) = 1 / s^2]: the polynomial
    [Ni Dr - Nr Di] is identically zero, the root finder reports no root and
    the code finds no phase crossover, while the frequency 1 is a real zero
    of the polynomial, is not below [epsw], is not a pole, and has the
    response -1, whose real part is negative. *)
Lemma zero_polynomial_counterexample :
  test_w_180 integrator2_num integrator2_den = [0; 0; 0] /\
  roots integrator2_lib (test_w_180 integrator2_num integrator2_den) = [] /\
  analytic_w_180 integrator2_lib integrator2_num integrator2_den
    epsw_default = [] /\
  polyval (test_w_180 integrator2_num integrator2_den) 1 = 0 /\
  epsw_default <= 1 /\
  cpolyval integrator2_den (jw 1) <> RtoC 0 /\
  Re (horner integrator2_num integrator2_den 1) < 0 /\
  ~ In 1 (analytic_w_180 integrator2_lib integrator2_num integrator2_den
            epsw_default).
Proof.
  assert (E : analytic_w_180 integrator2_lib integrator2_num integrator2_den
                epsw_default = [])
    by (apply analytic_w_180_no_roots; reflexivity).
  split; [apply integrator2_w_180|]. split; [reflexivity|].
  split; [exact E|]. rewrite E, integrator2_w_180, integrator2_response_1.
  rewrite integrator2_den_1.
  repeat split.
  - unfold polyval; simpl. lra.
  - unfold epsw_default. lra.
  - unfold RtoC. intros H. injection H as H. lra.
  - unfold Re; simpl. lra.
  - intros [].
Qed.

(** ** The sampled path *)


Lemma getitem_nth {A : Type} (a : list A) (i : nat) (x d : A) :
  getitem a i = Ok x -> nth i a d = x.
Proof.
  unfold getitem. destruct (nth_error a i) eqn:E; try discriminate.
  intros H. injection H as <-. now apply nth_error_nth.
Qed.


Lemma mapM_getitem (om : list R) (widx : list nat) (at_widx : list R) :
  mapM (getitem om) widx = Ok at_widx ->
  at_widx = map (fun i => nth i om 0) widx.
Proof.
  revert at_widx. induction widx as [|i t IH]; intros at_widx H.
  - now injection H as <-.
  - cbn [mapM] in H. destruct (getitem om i) as [x|] eqn:Ei; try discriminate.
    cbn [bind] in H. destruct (mapM (getitem om) t) as [xs|]; try discriminate.
    cbn [bind] in H. injection H as <-. cbn [map].
    now rewrite (IH xs eq_refl), (getitem_nth om i x 0 Ei).
Qed.




Lemma stability_margins_raise (L : numlib) (s : sysdata) (sys : ltisys)
  (returnall : bool) (epsw : R) (e : error) :
  dispatch L s = Ok sys ->
  crossovers L sys epsw = Raise e ->
  stability_margins L s returnall epsw = Raise e.
Proof.
  intros Hd Hc. unfold stability_margins.
  rewrite Hd; cbn [bind]. now rewrite Hc.
Qed.


(** *** The window [omega[i-1:i+2]] at the first grid index *)

Lemma py_slice_before_front {A : Type} (a : list A) :
  (3 <= length a)%nat ->
  py_slice (Z.of_nat 0 - 1) (Z.of_nat 0 + 2) a = [].
Proof.
  intros H. unfold py_slice.
  change (Z.of_nat 0 - 1)%Z with (-1)%Z.
  change (Z.of_nat 0 + 2)%Z with 2%Z.
  change (-1 <? 0)%Z with true. change (2 <? 0)%Z with false. cbv iota.
  replace (Z.to_nat (Z.min 2 (Z.of_nat (length a))
                     - Z.max (-1 + Z.of_nat (length a)) 0)) with 0%nat
    by lia.
  reflexivity.
Qed.

Lemma stab_bracket_ok_front (om : list R) (ev : R -> C) :
  (3 <= length om)%nat -> stab_bracket_ok om ev 0 = Raise IndexError.
Proof.
  intros H. unfold stab_bracket_ok.
  replace (Nat.ltb (0 + 1) (length om)) with true
    by (symmetry; apply Nat.ltb_lt; lia).
  now rewrite py_slice_before_front.
Qed.

Lemma stab_brackets_front (ev : R -> C) (o0 o1 o2 : R) (rest : list R) :
  sign (dstab ev o1 - dstab ev o0) <> sign (dstab ev o2 - dstab ev o1) ->
  exists t, stab_brackets (o0 :: o1 :: o2 :: rest) ev = 0%nat :: t.
Proof.
  intros H. unfold stab_brackets, where_nz. cbn [map diff where_from].
  rewrite (proj2 (Reqb_false _ 0)) by lra. eauto.
Qed.

Lemma sampled_wstab_front (L : numlib) (ev : R -> C) (o0 o1 o2 : R)
  (rest : list R) :
  sign (dstab ev o1 - dstab ev o0) <> sign (dstab ev o2 - dstab ev o1) ->
  sampled_wstab L (o0 :: o1 :: o2 :: rest) ev = Raise IndexError.
Proof.
  intros Hsign. unfold sampled_wstab.
  fold (stab_brackets (o0 :: o1 :: o2 :: rest) ev).
  destruct (stab_brackets_front ev o0 o1 o2 rest Hsign) as [t ->].
  cbn [stab_candidates].
  rewrite stab_bracket_ok_front by (simpl; lia).
  reflexivity.
Qed.

(** C9: in the sampled path, when the first differences of [|G + 1|] change
    sign between the first two intervals of the grid, the bracket at the
    index 0 is tested on the window [omega[-1:2]], which is empty, and the
    call raises [IndexError]: it never returns a result, and [IndexError] is
    the exception once the two crossover searches before it have returned. *)
Theorem sampled_bracket_at_front_raises (L : numlib) (s : sysdata)
  (ev : R -> C) (returnall : bool) (epsw : R) (o0 o1 o2 : R)
  (rest : list R) :
  let om := o0 :: o1 :: o2 :: rest in
  dispatch L s = Ok (LtiFRD om ev) ->
  sign (dstab ev o1 - dstab ev o0) <> sign (dstab ev o2 - dstab ev o1) ->
  py_slice (-1) 2 om = [] /\
  (exists e, stability_margins L s returnall epsw = Raise e) /\
  (forall wc w_180,
     sampled_wc L om ev = Ok wc ->
     sampled_w_180 L om ev = Ok w_180 ->
     stability_margins L s returnall epsw = Raise IndexError).
Proof.
  intros om Hd Hsign.
  assert (Hlen : (3 <= length om)%nat) by (simpl; lia).
  assert (Hs : sampled_wstab L om ev = Raise IndexError)
    by now apply sampled_wstab_front.
  split; [exact (py_slice_before_front om Hlen)|].
  split.
  - assert (Hc : exists e, crossovers L (LtiFRD om ev) epsw = Raise e).
    { cbn [crossovers].
      destruct (sampled_wc L om ev); cbn [bind]; eauto.
      destruct (sampled_w_180 L om ev); cbn [bind]; eauto.
      rewrite Hs. cbn [bind]. eauto. }
    destruct Hc as [e Hc]. exists e.
    now apply stability_margins_raise with (LtiFRD om ev).
  - intros wc w_180 Hwc Hw.
    apply stability_margins_raise with (LtiFRD om ev); auto.
    cbn [crossovers]. rewrite Hwc; cbn [bind]. rewrite Hw; cbn [bind].
    now rewrite Hs.
Qed.

(** *** The crossover searches return when the root-finder does *)

Lemma mapM_ok {A B : Type} (f : A -> result B) (l : list A) :
  (forall x, In x l -> exists y, f x = Ok y) -> exists ys, mapM f l = Ok ys.
Proof.
  induction l as [|x l IH]; intros H; cbn [mapM]; eauto.
  destruct (H x (or_introl eq_refl)) as [y ->]. cbn [bind].
  destruct IH as [ys ->]; [intros z Hz; apply H; now right|].
  cbn [bind]. eauto.
Qed.

Lemma getitem_ok {A : Type} (a : list A) (i : nat) :
  (i < length a)%nat -> exists x, getitem a i = Ok x.
Proof.
  intros H. unfold getitem.
  destruct (nth_error a i) eqn:E; eauto.
  apply nth_error_None in E. lia.
Qed.

Lemma diff_length (a : list R) : length (diff a) = (length a - 1)%nat.
Proof.
  induction a as [|x [|y t] IH]; auto.
  change (diff (x :: y :: t)) with ((y - x) :: diff (y :: t)).
  cbn [length] in *. rewrite IH. lia.
Qed.

Lemma where_from_bound (k i : nat) (a : list R) :
  In i (where_from k a) -> (k <= i < k + length a)%nat.
Proof.
  revert k. induction a as [|x t IH]; intros k H; [contradiction|].
  cbn [where_from] in H. cbn [length].
  destruct (Reqb x 0).
  - apply IH in H. lia.
  - destruct H as [<-|H]; [lia|]. apply IH in H. lia.
Qed.

Lemma where_nz_diff_bound (i : nat) (a : list R) :
  In i (where_nz (diff a)) -> (i + 1 < length a)%nat.
Proof.
  intros H. apply where_from_bound in H. rewrite diff_length in H. lia.
Qed.

Lemma refine_brackets_total (L : numlib) (om : list R) (f : R -> R)
  (widx : list nat) :
  (forall g a b, exists x, brentq L g a b = Ok x) ->
  exists l, refine_brackets L om f widx = Ok l.
Proof.
  intros Hb. unfold refine_brackets. apply mapM_ok.
  intros i Hi. apply filter_In in Hi as [_ Hi]. apply Nat.ltb_lt in Hi.
  destruct (getitem_ok om i) as [a ->]; [lia|]. cbn [bind].
  destruct (getitem_ok om (i + 1)) as [b ->]; [lia|]. cbn [bind].
  apply Hb.
Qed.

Lemma sampled_wc_total (L : numlib) (om : list R) (ev : R -> C) :
  (forall g a b, exists x, brentq L g a b = Ok x) ->
  exists l, sampled_wc L om ev = Ok l.
Proof. intros Hb. now apply refine_brackets_total. Qed.

Lemma sampled_w_180_total (L : numlib) (om : list R) (ev : R -> C) :
  (forall g a b, exists x, brentq L g a b = Ok x) ->
  exists l, sampled_w_180 L om ev = Ok l.
Proof.
  intros Hb. unfold sampled_w_180.
  destruct (mapM_ok (getitem om)
              (where_nz (diff (map sign (map (arg ev) om))))) as [ys ->].
  - intros i Hi. apply where_nz_diff_bound in Hi.
    rewrite !length_map in Hi. apply getitem_ok. lia.
  - cbn [bind]. now apply refine_brackets_total.
Qed.

(** ** The sampled example *)

Lemma cabs_of_real (z : C) : Im z = 0 -> 0 <= Re z -> cabs z = Re z.
Proof.
  intros Hi Hr. unfold cabs. rewrite Hi. apply sqrt_lem_1; nra.
Qed.

Lemma cabs_sample (w : R) : cabs (sample_response w) = (w - 2) * (w - 2).
Proof.
  rewrite cabs_of_real; unfold sample_response, Re, Im; simpl;
    [reflexivity|reflexivity|apply (Rle_0_sqr (w - 2))].
Qed.

Lemma dstab_sample (w : R) :
  dstab sample_response w = (w - 2) * (w - 2) + 1.
Proof.
  unfold dstab. rewrite cabs_of_real;
    unfold sample_response, cadd, RtoC, Re, Im; simpl;
    [reflexivity|lra|].
  pose proof (Rle_0_sqr (w - 2)) as H. unfold Rsqr in H. lra.
Qed.

Lemma sample_gain_brackets :
  gain_brackets (omega sample_frd) sample_response = [0; 1]%nat.
Proof.
  unfold gain_brackets, mod_. cbn [omega sample_frd map].
  rewrite !cabs_sample. unfold sign.
  repeat Rcond. cbn [diff]. unfold where_nz. cbn [where_from].
  repeat Rcond. reflexivity.
Qed.

Lemma sample_sign_change :
  sign (dstab sample_response 2 - dstab sample_response 1)
  <> sign (dstab sample_response 3 - dstab sample_response 2).
Proof.
  rewrite !dstab_sample. unfold sign. repeat Rcond. lra.
Qed.





Lemma sample_lib_brentq (g : R -> R) (a b : R) :
  exists x, brentq sample_lib g a b = Ok x.
Proof. now exists a. Qed.

Lemma sampled_bracket_at_front_raises_witness :
  stability_margins sample_lib (SysFRD sample_frd) false epsw_default
  = Raise IndexError.
Proof.
  destruct (sampled_wc_total sample_lib (omega sample_frd) sample_response
              sample_lib_brentq) as [wc Hwc].
  destruct (sampled_w_180_total sample_lib (omega sample_frd) sample_response
              sample_lib_brentq) as [w_180 Hw].
  apply (sampled_bracket_at_front_raises sample_lib (SysFRD sample_frd)
           sample_response false epsw_default 1 2 3 [] eq_refl
           sample_sign_change) with wc w_180; assumption.
Defined.

(** ** The array primitives on small inputs *)

Example py_slice_inner : py_slice 0 3 [10; 20; 30; 40]%nat = [10; 20; 30]%nat.
Proof. reflexivity. Qed.

Example py_slice_negative_start :
  py_slice (-1) 2 [10; 20; 30; 40]%nat = [].
Proof. reflexivity. Qed.

Example py_slice_short_array : py_slice (-1) 2 [10; 20]%nat = [20]%nat.
Proof. reflexivity. Qed.

Example polyimsplit_degree_4 :
  _polyimsplit [1; 2; 3; 4; 5] = ([1; 0; -3; 0; 5], [0; -2; 0; 4; 0]).
Proof. unfold _polyimsplit. Rcbn. f_equal; list_eq. Qed.

Example polymul_leading_zero : polymul [0; 1; 1] [1; -1] = [1; 0; -1].
Proof. unfold polymul. repeat poly_step. list_eq. Qed.

Example polyder_cubic : polyder [2; 0; 3; 7] = [6; 0; 3].
Proof. repeat poly_step. list_eq. Qed.

Example sort_three : sort [3; 1; 2] = [1; 2; 3].
Proof.
  unfold sort. cbn [fold_right insert_sorted].
  repeat (Rcond; cbn [insert_sorted]). reflexivity.
Qed.

Example where_nz_signs :
  where_nz (diff (map sign [-2; 5; 0; 0; -1])) = [0; 1; 3]%nat.
Proof.
  unfold sign. cbn [map]. repeat Rcond. cbn [diff]. unfold where_nz.
  cbn [where_from]. repeat Rcond. reflexivity.
Qed.

(** * Further properties of the module *)

(** ** The frequency sets of the analytic path, whatever the root finder *)

(** X1: the three frequency sets of the analytic path are ascending; every
    phase crossover is at least [epsw], every gain crossover and every
    stability candidate is above [epsw], a stability candidate is not
    negative, and each member is an entry of the root finder's answer with
    zero imaginary part. *)
Theorem analytic_sets_sorted_above_epsw (L : numlib) (n d : poly) (epsw : R) :
  Sorted Rle (analytic_w_180 L n d epsw) /\
  Sorted Rle (analytic_wc L n d epsw) /\
  Sorted Rle (analytic_wstab L n d epsw) /\
  (forall w, In w (analytic_w_180 L n d epsw) ->
     epsw <= w /\ In (w, 0) (roots L (test_w_180 n d))) /\
  (forall w, In w (analytic_wc L n d epsw) ->
     epsw < w /\ In (w, 0) (roots L (test_wc n d))) /\
  (forall w, In w (analytic_wstab L n d epsw) ->
     epsw < w /\ 0 <= w /\ In (w, 0) (roots L (test_wstab n d))).
Proof.
  rewrite analytic_w_180_filter, analytic_wc_filter, analytic_wstab_filter.
  repeat (split; [apply sort_sorted|]).
  split; [|split]; intros w Hw; rewrite sort_In in Hw.
  - apply filter_In in Hw as [Hw _]. apply In_real_parts in Hw as [H1 H2].
    apply Cgeb_real in H2. auto.
  - apply In_real_parts in Hw as [H1 H2]. apply Cgtb_real in H2. auto.
  - apply filter_In in Hw as [Hw Hc].
    apply (In_real_parts (fun z => Rleb 0 (Re z))) in Hw as [H1 H2].
    apply Rleb_true in H2. unfold Re in H2; simpl in H2.
    apply andb_true_iff in Hc as [Hc _]. apply andb_true_iff in Hc as [_ Hc].
    apply Rltb_true in Hc. auto.
Qed.

(** ** The outcome of [stability_margins] on a transfer function *)




(** ** The reduced margins and their frequencies *)

Lemma first_index_of_nth (v : R) (m : list R) (i : nat) :
  first_index_of v m = Some i -> nth_error m i = Some v.
Proof.
  revert i. induction m as [|x t IH]; intros i H; try discriminate.
  simpl in H. destruct (Reqb x v) eqn:E.
  - injection H as <-. apply Reqb_true in E. now subst.
  - destruct (first_index_of v t) as [j|]; try discriminate.
    injection H as <-. now apply IH.
Qed.

(** The reduced value is the margin function at the reduced frequency. *)
Lemma reduction_at_frequency (f : R -> R) (w : list R) (v x : R) :
  min_value (map f w) = Ok (Some v) ->
  min_frequency (map f w) w = Ok (Some x) ->
  In x w /\ v = f x /\ forall y, In y w -> f x <= f y.
Proof.
  intros Hv Hx.
  destruct (reduction_consistent (map f w) w) as (value & freq & Hv' & Hx' & C);
    [apply length_map|].
  rewrite Hv in Hv'. rewrite Hx in Hx'.
  injection Hv' as <-. injection Hx' as <-.
  destruct w as [|a w]; [discriminate|].
  cbn [map] in C. unfold consistent_reduction in C.
  destruct C as (v' & i & f' & [_ Hmin] & Hi & Hnth & E1 & E2).
  injection E1 as ->. injection E2 as ->.
  apply first_index_of_nth in Hi.
  change (f a :: map f w) with (map f (a :: w)) in Hi, Hmin.
  rewrite nth_error_map, Hnth in Hi. injection Hi as <-.
  split; [now apply nth_error_In in Hnth|]. split; auto.
  intros y Hy. apply Hmin. now apply in_map.
Qed.

(** X3: in the default mode, on either path, each reported margin is the
    margin function at its reported frequency, which is a member of the
    corresponding frequency set, and no other member of the set has a
    smaller margin.  Where no phase crossover is a pole of the transfer
    function or a zero of the response, [gm * |G(j wg)| = 1]; where no gain
    crossover is a pole and the response at none of them is on the
    non-positive real axis (there the sign of a zero decides [np.angle]),
    [pm = angle(G(j wp)) * 180 / pi + 180]; where no stability candidate is
    a pole, [sm = |G(j ws) + 1|]. *)
Theorem reduced_margins_at_frequencies (L : numlib) (s : sysdata)
  (sys : ltisys) (epsw : R) (w_180 wc wstab : list R) (ev : R -> C)
  (t : tuple6) :
  dispatch L s = Ok sys ->
  crossovers L sys epsw = Ok (w_180, wc, wstab, ev) ->
  stability_margins L s false epsw = Ok t ->
  ((forall w, In w w_180 -> no_pole_at sys w /\ cabs (ev w) <> 0) ->
   forall gm wg, item0 t = Num (Some gm) -> item3 t = Num (Some wg) ->
     In wg w_180 /\ gm * cabs (ev wg) = 1 /\
     forall w, In w w_180 -> gm <= 1 / cabs (ev w)) /\
  ((forall w, In w wc ->
      no_pole_at sys w /\ ~ (Im (ev w) = 0 /\ Re (ev w) <= 0)) ->
   forall pm wp, item1 t = Num (Some pm) -> item4 t = Num (Some wp) ->
     In wp wc /\ pm = angle (ev wp) * (180 / PI) + 180 /\
     forall w, In w wc -> pm <= angle (ev w) * (180 / PI) + 180) /\
  ((forall w, In w wstab -> no_pole_at sys w) ->
   forall sm ws, item2 t = Num (Some sm) -> item5 t = Num (Some ws) ->
     In ws wstab /\ sm = cabs (cadd (ev ws) (RtoC 1)) /\
     forall w, In w wstab -> sm <= cabs (cadd (ev w) (RtoC 1))).
Proof.
  intros Hd Hc H. unfold stability_margins in H.
  rewrite Hd in H; cbn [bind] in H. rewrite Hc in H; cbn [bind] in H.
  set (GM := map (fun w => 1 / cabs (ev w)) w_180) in *.
  set (SM := map (fun w => cabs (cadd (ev w) (RtoC 1))) wstab) in *.
  set (PM := map (fun w => angle (ev w) * (180 / PI) + 180) wc) in *.
  destruct (min_value GM) as [gm'|] eqn:E1; try discriminate.
  cbn [bind] in H.
  destruct (min_value PM) as [pm'|] eqn:E2; try discriminate.
  cbn [bind] in H.
  destruct (min_value SM) as [sm'|] eqn:E3; try discriminate.
  cbn [bind] in H.
  destruct (min_frequency GM w_180) as [wg'|] eqn:E4; try discriminate.
  cbn [bind] in H.
  destruct (min_frequency PM wc) as [wp'|] eqn:E5; try discriminate.
  cbn [bind] in H.
  destruct (min_frequency SM wstab) as [ws'|] eqn:E6; try discriminate.
  cbn [bind] in H.
  injection H as <-. cbn [item0 item1 item2 item3 item4 item5].
  split; [|split].
  - intros Hfin gm wg Hv Hf. injection Hv as ->. injection Hf as ->.
    destruct (reduction_at_frequency _ _ _ _ E1 E4) as (A1 & A2 & A3).
    repeat split; auto.
    + destruct (Hfin wg A1) as [_ Hnz]. rewrite A2. now field.
    + intros w Hw. rewrite A2. now apply A3.
  - intros _ pm wp Hv Hf. injection Hv as ->. injection Hf as ->.
    destruct (reduction_at_frequency _ _ _ _ E2 E5) as (B1 & B2 & B3).
    repeat split; auto.
    intros w Hw. rewrite B2. now apply B3.
  - intros _ sm ws Hv Hf. injection Hv as ->. injection Hf as ->.
    destruct (reduction_at_frequency _ _ _ _ E3 E6) as (C1 & C2 & C3).
    repeat split; auto.
    intros w Hw. rewrite C2. now apply C3.
Qed.

Lemma lag_stability_margins :
  exists sm ws,
    stability_margins lag_lib (SysTF (tf_siso lag_num lag_den)) false
      epsw_default =
    Ok (Tuple6 (Num (Some (1 / 5)))
          (Num (Some (angle (horner lag_num lag_den 2) * (180 / PI) + 180)))
          (Num sm) (Num (Some 1)) (Num (Some 2)) (Num ws)).
Proof.
  unfold stability_margins.
  cbn [dispatch bind crossovers tf_siso issiso inputs outputs num den
       Nat.eqb andb negb channel00 getitem nth_error].
  rewrite lag_analytic_w_180, lag_analytic_wc. cbn [map].
  rewrite cabs_lag_1.
  set (wstab := analytic_wstab lag_lib lag_num lag_den epsw_default).
  set (SM := map _ wstab).
  destruct (reduction_consistent SM wstab) as (sm & ws & Hsm & Hws & _);
    [apply length_map|].
  exists sm, ws. rewrite Hsm, Hws.
  unfold min_value, min_frequency, amin.
  cbn [length fold_left bind map mask_select].
  rewrite !Reqb_refl. reflexivity.
Qed.

Lemma crossovers_siso (L : numlib) (n d : poly) (epsw : R) :
  crossovers L (LtiTF (tf_siso n d)) epsw =
  Ok (analytic_w_180 L n d epsw, analytic_wc L n d epsw,
      analytic_wstab L n d epsw, horner n d).
Proof. reflexivity. Qed.

Lemma lag_no_pole_at_1 :
  no_pole_at (LtiTF (tf_siso lag_num lag_den)) 1.
Proof.
  intros d Hd. injection Hd as <-. apply lag_den_1_nonzero.
Qed.

Lemma reduced_margins_at_frequencies_witness :
  1 / 5 * cabs (horner lag_num lag_den 1) = 1.
Proof.
  destruct lag_stability_margins as (sm & ws & H).
  destruct (reduced_margins_at_frequencies lag_lib
              (SysTF (tf_siso lag_num lag_den))
              (LtiTF (tf_siso lag_num lag_den)) epsw_default _ _ _ _ _
              eq_refl (crossovers_siso lag_lib lag_num lag_den epsw_default)
              H) as (Hg & _ & _).
  assert (Hfin : forall w,
             In w (analytic_w_180 lag_lib lag_num lag_den epsw_default) ->
             no_pole_at (LtiTF (tf_siso lag_num lag_den)) w /\
             cabs (horner lag_num lag_den w) <> 0).
  { rewrite lag_analytic_w_180. intros w [<-|[]].
    split; [apply lag_no_pole_at_1|]. rewrite cabs_lag_1. lra. }
  destruct (Hg Hfin (1 / 5) 1 eq_refl eq_refl) as (_ & E & _).
  exact E.
Defined.

(** ** A pure gain *)

Lemma poly1d_singleton (x : R) : exists y, poly1d [x] = [y].
Proof.
  unfold poly1d. cbn [trim_zeros_f]. destruct (Reqb x 0); eauto.
Qed.

Lemma polymul_singletons (x y : R) : exists z, polymul [x] [y] = [z].
Proof.
  unfold polymul.
  destruct (poly1d_singleton x) as [x' ->].
  destruct (poly1d_singleton y) as [y' ->].
  cbn [convolve scale map]. eauto.
Qed.

Lemma polymul_nil_singleton (y : R) : exists z, polymul [] [y] = [z].
Proof.
  unfold polymul. rewrite poly1d_nil.
  destruct (poly1d_singleton y) as [y' ->].
  cbn [convolve scale map]. eauto.
Qed.

Lemma polysqr_singleton (x : R) : exists z, _polysqr [x] = [z].
Proof. apply polymul_singletons. Qed.

(** For constant numerator and denominator the three derived polynomials
    are constants. *)
Lemma pure_gain_polynomials (k c : R) :
  (exists a, test_w_180 [k] [c] = [a]) /\
  (exists a, test_wc [k] [c] = [a]) /\
  (exists a, test_wstab [k] [c] = [a]).
Proof.
  split; [|split].
  - unfold test_w_180. cbn [_polyimsplit zeros_like map assign_back4
      assign_every4 rev app Nat.sub map2 combine fst snd].
    destruct (polymul_singletons (k * 0) (c * 1)) as [a ->].
    destruct (polymul_singletons (k * 1) (- (c * 0))) as [b ->].
    eexists. reflexivity.
  - unfold test_wc. cbn [_polyimsplit zeros_like map assign_back4
      assign_every4 rev app Nat.sub map2 combine fst snd].
    destruct (polysqr_singleton (k * 1)) as [a1 ->].
    destruct (polysqr_singleton (k * 0)) as [a2 ->].
    destruct (polysqr_singleton (c * 1)) as [a3 ->].
    destruct (polysqr_singleton (c * 0)) as [a4 ->].
    eexists. reflexivity.
  - unfold test_wstab, test_wstabn, test_wstabd.
    cbn [_polyimsplit zeros_like map assign_back4
      assign_every4 rev app Nat.sub map2 combine fst snd].
    destruct (polysqr_singleton (c * 1)) as [a3 ->].
    destruct (polysqr_singleton (c * 0)) as [a4 ->].
    change (polyadd [k * 1] [c * 1]) with [k * 1 + c * 1].
    change (polyadd [k * 0] [c * 0]) with [k * 0 + c * 0].
    destruct (polysqr_singleton (k * 1 + c * 1)) as [a1 ->].
    destruct (polysqr_singleton (k * 0 + c * 0)) as [a2 ->].
    change (polyadd [a3] [a4]) with [a3 + a4].
    change (polyadd [a1] [a2]) with [a1 + a2].
    change (polyder [a1 + a2]) with (@nil R).
    change (polyder [a3 + a4]) with (@nil R).
    destruct (polymul_nil_singleton (a3 + a4)) as [b1 ->].
    destruct (polymul_nil_singleton (a1 + a2)) as [b2 ->].
    eexists. reflexivity.
Qed.

(** X4: a pure gain [k / c] has no crossover of any kind when the root
    finder reports no root for a constant polynomial, as [np.roots] does:
    the arrays of all crossovers are empty and the six reduced entries are
    [None]. *)
Theorem pure_gain_margins_undefined (L : numlib) (k c epsw : R) :
  (forall a, roots L [a] = []) ->
  stability_margins L (SysTF (tf_siso [k] [c])) true epsw
  = Ok (Tuple6 (Arr []) (Arr []) (Arr []) (Arr []) (Arr []) (Arr [])) /\
  stability_margins L (SysTF (tf_siso [k] [c])) false epsw
  = Ok (Tuple6 (Num None) (Num None) (Num None)
               (Num None) (Num None) (Num None)).
Proof.
  intros Hroots.
  destruct (pure_gain_polynomials k c) as ([a1 H1] & [a2 H2] & [a3 H3]).
  assert (E1 : analytic_w_180 L [k] [c] epsw = [])
    by (unfold analytic_w_180; rewrite H1, Hroots; reflexivity).
  assert (E2 : analytic_wc L [k] [c] epsw = [])
    by (unfold analytic_wc; rewrite H2, Hroots; reflexivity).
  assert (E3 : analytic_wstab L [k] [c] epsw = [])
    by (unfold analytic_wstab; rewrite H3, Hroots; reflexivity).
  unfold stability_margins.
  cbn [dispatch bind]. rewrite crossovers_siso. cbn [bind].
  rewrite E1, E2, E3. split; reflexivity.
Qed.

Lemma pure_gain_margins_undefined_witness :
  stability_margins sample_lib (SysTF (tf_siso [2] [1])) false epsw_default
  = Ok (Tuple6 (Num None) (Num None) (Num None)
               (Num None) (Num None) (Num None)).
Proof.
  apply (pure_gain_margins_undefined sample_lib 2 1 epsw_default).
  reflexivity.
Defined.

(** ** What holds at the crossovers of the analytic path *)

Lemma horner_imag_part (n d : poly) (w : R) :
  Im (horner n d w) =
  (polyval (snd (_polyimsplit n)) w * polyval (fst (_polyimsplit d)) w
   - polyval (fst (_polyimsplit n)) w * polyval (snd (_polyimsplit d)) w)
  / (polyval (fst (_polyimsplit d)) w * polyval (fst (_polyimsplit d)) w
     + polyval (snd (_polyimsplit d)) w * polyval (snd (_polyimsplit d)) w).
Proof.
  destruct (polyimsplit_low n) as [_ _].
  unfold horner. rewrite !cpolyval_split. reflexivity.
Qed.

(** X5: when the root finder lists the real zeros of its polynomial, the
    response at every phase crossover of the analytic path at which the
    denominator is not zero is a negative real number: its imaginary part
    is zero and its real part is negative, which is the phase of -180
    degrees.  A phase crossover at which the denominator is zero is a pole
    where the real part of the numerator is negative. *)
Theorem phase_crossovers_on_negative_real_axis (L : numlib) (n d : poly)
  (epsw : R) :
  real_roots_ok (test_w_180 n d) (roots L (test_w_180 n d)) ->
  forall w, In w (analytic_w_180 L n d epsw) ->
    (cpolyval d (jw w) <> RtoC 0 ->
     Im (horner n d w) = 0 /\ Re (horner n d w) < 0) /\
    (cpolyval d (jw w) = RtoC 0 -> Re (cpolyval n (jw w)) < 0).
Proof.
  intros Hroots w Hw.
  apply (analytic_w_180_mask L n d epsw Hroots) in Hw as (Hz & _ & Hre).
  split; intros Hd.
  - rewrite (response_negative_off_pole n d w Hd) in Hre.
    apply Rltb_true in Hre. split; auto.
    rewrite horner_imag_part, <- test_w_180_value, Hz. unfold Rdiv. ring.
  - rewrite (response_negative_at_pole n d w Hd) in Hre.
    now apply Rltb_true in Hre.
Qed.

Lemma phase_crossovers_on_negative_real_axis_witness :
  Im (horner lag_num lag_den 1) = 0 /\ Re (horner lag_num lag_den 1) < 0.
Proof.
  apply (phase_crossovers_on_negative_real_axis lag_lib lag_num lag_den
           epsw_default lag_roots_ok).
  - rewrite lag_analytic_w_180. now left.
  - apply lag_den_1_nonzero.
Defined.

Lemma test_wc_value (n d : poly) (w : R) :
  polyval (test_wc n d) w =
  (Re (cpolyval n (jw w)) * Re (cpolyval n (jw w))
   + Im (cpolyval n (jw w)) * Im (cpolyval n (jw w)))
  - (Re (cpolyval d (jw w)) * Re (cpolyval d (jw w))
     + Im (cpolyval d (jw w)) * Im (cpolyval d (jw w))).
Proof.
  unfold test_wc.
  destruct (polyimsplit_values d w) as (Hr & Hi).
  destruct (polyimsplit_values n w) as (Hr' & Hi').
  destruct (_polyimsplit d) as [rden iden].
  destruct (_polyimsplit n) as [rnum inum]. simpl fst in *; simpl snd in *.
  rewrite polyval_polysub, !polyval_polyadd, !polyval_polysqr.
  now rewrite Hr, Hi, Hr', Hi'.
Qed.

Lemma cabs_cdiv_unit (a b : C) :
  Re a * Re a + Im a * Im a = Re b * Re b + Im b * Im b ->
  Re b * Re b + Im b * Im b <> 0 ->
  cabs (cdiv a b) = 1.
Proof.
  intros Heq Hnz. unfold cabs, cdiv. cbn [Re Im fst snd].
  set (q := Re b * Re b + Im b * Im b) in *.
  apply sqrt_lem_1; try lra.
  - apply Rplus_le_le_0_compat; apply Rle_0_sqr.
  - transitivity
      ((Re a * Re a + Im a * Im a) * q / (q * q)); [|unfold q; field; auto].
    rewrite Heq. fold q. field. auto.
Qed.

(** X6: when the root finder lists the real zeros of its polynomial, the
    gain crossovers of the analytic path are, in ascending order, exactly
    the real zeros above [epsw] of [|N(jw)|^2 - |D(jw)|^2], and the magnitude
    of the response is 1 at each of them where the denominator does not
    vanish. *)
Theorem analytic_wc_exact (L : numlib) (n d : poly) (epsw : R) :
  real_roots_ok (test_wc n d) (roots L (test_wc n d)) ->
  Sorted Rle (analytic_wc L n d epsw) /\
  (forall w, In w (analytic_wc L n d epsw) <->
     polyval (test_wc n d) w = 0 /\ epsw < w) /\
  (forall w, In w (analytic_wc L n d epsw) ->
     Re (cpolyval d (jw w)) * Re (cpolyval d (jw w))
     + Im (cpolyval d (jw w)) * Im (cpolyval d (jw w)) <> 0 ->
     cabs (horner n d w) = 1).
Proof.
  intros Hroots.
  assert (Hmem : forall w, In w (analytic_wc L n d epsw) <->
                   polyval (test_wc n d) w = 0 /\ epsw < w).
  { intros w. rewrite analytic_wc_filter, sort_In, In_real_parts.
    now rewrite Cgtb_real, (Hroots w). }
  split; [rewrite analytic_wc_filter; apply sort_sorted|].
  split; [exact Hmem|].
  intros w Hw Hnz. apply Hmem in Hw as [Hz _].
  rewrite test_wc_value in Hz.
  apply cabs_cdiv_unit; auto. lra.
Qed.

Lemma lag_wc_roots_ok :
  real_roots_ok (test_wc lag_num lag_den)
    (roots lag_lib (test_wc lag_num lag_den)).
Proof.
  intros w. rewrite lag_roots_wc, lag_wc. unfold polyval; simpl. split.
  - intros H.
    repeat (destruct H as [H|H];
            [injection H; intros; subst; lra || (exfalso; lra)|]).
    contradiction.
  - intros H.
    assert (E : (w - 2) * ((w + 2) * (w * w * w * w + 6 * (w * w) + 25)) = 0).
    { rewrite <- Ropp_0, <- H. ring. }
    apply Rmult_integral in E as [E|E]; [left; f_equal; lra|].
    apply Rmult_integral in E as [E|E]; [right; left; f_equal; lra|].
    exfalso. pose proof (Rle_0_sqr w) as H1. unfold Rsqr in H1.
    pose proof (Rle_0_sqr (w * w)) as H2. unfold Rsqr in H2. lra.
Qed.

Lemma analytic_wc_exact_witness : cabs (horner lag_num lag_den 2) = 1.
Proof.
  apply (analytic_wc_exact lag_lib lag_num lag_den epsw_default
           lag_wc_roots_ok).
  - rewrite lag_analytic_wc. now left.
  - rewrite cpolyval_split.
    unfold lag_den, polyval. Rcbn. cbn [fold_left Re Im fst snd]. lra.
Defined.

(** ** The stability candidates are stationary points *)

Lemma dist2_quotient (n d : poly) (w : R) :
  polyval (test_wstabd n d) w <> 0 ->
  dist2 n d w = polyval (test_wstabn n d) w / polyval (test_wstabd n d) w.
Proof.
  rewrite test_wstabd_value, test_wstabn_value. intros Hnz.
  unfold dist2, horner, cdiv, cadd, RtoC. cbn [Re Im fst snd] in *.
  destruct (cpolyval n (jw w)) as [nr ni].
  destruct (cpolyval d (jw w)) as [dr di]. cbn [fst snd] in *.
  field. exact Hnz.
Qed.

Lemma resonant_candidate :
  In 2 (analytic_wstab resonant_lib resonant_num resonant_den epsw_default).
Proof.
  apply (analytic_wstab_members resonant_lib resonant_num resonant_den
           epsw_default resonant_roots_ok).
  rewrite resonant_wstab. unfold epsw_default, polyder, polyval. Rcbn.
  cbn [fold_left]. lra.
Qed.

(** X7: when the root finder lists the real zeros of the combined
    polynomial, every stability candidate of the analytic path at which the
    denominator [|D(jw)|^2] does not vanish is a stationary point of the
    rational function [|N(jw) + D(jw)|^2 / |D(jw)|^2], whose value there is
    the squared distance of [G(jw)] to -1. *)
Theorem stability_candidates_stationary (L : numlib) (n d : poly)
  (epsw : R) :
  real_roots_ok (test_wstab n d) (roots L (test_wstab n d)) ->
  forall w, In w (analytic_wstab L n d epsw) ->
    polyval (test_wstabd n d) w <> 0 ->
    derivable_pt_lim
      (fun x => polyval (test_wstabn n d) x / polyval (test_wstabd n d) x)
      w 0 /\
    dist2 n d w = polyval (test_wstabn n d) w / polyval (test_wstabd n d) w.
Proof.
  intros Hroots w Hw Hnz.
  apply (analytic_wstab_members L n d epsw Hroots) in Hw as (Hz & _).
  split; [|now apply dist2_quotient].
  rewrite test_wstab_value in Hz.
  replace 0 with
    ((polyval (polyder (test_wstabn n d)) w * polyval (test_wstabd n d) w
      - polyval (polyder (test_wstabd n d)) w * polyval (test_wstabn n d) w)
     / Rsqr (polyval (test_wstabd n d) w))
    by (rewrite Hz; unfold Rdiv; ring).
  apply (derivable_pt_lim_div (polyval (test_wstabn n d))
           (polyval (test_wstabd n d)));
    auto using polyder_derivative.
Qed.

Lemma stability_candidates_stationary_witness :
  dist2 resonant_num resonant_den 2 =
  polyval (test_wstabn resonant_num resonant_den) 2
  / polyval (test_wstabd resonant_num resonant_den) 2.
Proof.
  apply (stability_candidates_stationary resonant_lib resonant_num
           resonant_den epsw_default resonant_roots_ok 2 resonant_candidate).
  rewrite resonant_wstabd. unfold polyval; simpl. lra.
Defined.

(** ** The sampled path: one crossover per sign change *)

Lemma mapM_Forall2 {A B : Type} (f : A -> result B) (l : list A)
  (ys : list B) :
  mapM f l = Ok ys -> Forall2 (fun x y => f x = Ok y) l ys.
Proof.
  revert ys. induction l as [|x l IH]; intros ys H.
  - injection H as <-. constructor.
  - cbn [mapM] in H. destruct (f x) as [y|] eqn:E; try discriminate.
    cbn [bind] in H. destruct (mapM f l) as [zs|]; try discriminate.
    cbn [bind] in H. injection H as <-. constructor; auto.
Qed.

Lemma filter_all {A : Type} (f : A -> bool) (l : list A) :
  (forall x, In x l -> f x = true) -> filter f l = l.
Proof.
  induction l as [|x l IH]; intros H; simpl; auto.
  rewrite (H x (or_introl eq_refl)), IH; auto.
  intros y Hy. apply H. now right.
Qed.

(** The test [i + 1 < len(omega)] of the comprehensions holds for every
    index that [np.diff] can give. *)
Lemma bracket_guard_holds (om a : list R) (widx : list nat) :
  length a = length om ->
  (forall i, In i widx -> In i (where_nz (diff a))) ->
  filter (fun i => Nat.ltb (i + 1) (length om)) widx = widx.
Proof.
  intros Hlen Hsub. apply filter_all. intros i Hi.
  apply Nat.ltb_lt. rewrite <- Hlen. now apply where_nz_diff_bound, Hsub.
Qed.

Lemma refine_brackets_Forall2 (L : numlib) (om a : list R) (f : R -> R)
  (widx : list nat) (ws : list R) :
  length a = length om ->
  (forall i, In i widx -> In i (where_nz (diff a))) ->
  refine_brackets L om f widx = Ok ws ->
  Forall2 (fun i x => brentq L f (nth i om 0) (nth (i + 1) om 0) = Ok x)
          widx ws.
Proof.
  intros Hlen Hsub H. unfold refine_brackets in H.
  rewrite (bracket_guard_holds om a widx Hlen Hsub) in H.
  apply mapM_Forall2 in H.
  eapply Forall2_impl; [|exact H]. cbv beta. intros i x Hx.
  destruct (getitem om i) as [u|] eqn:Eu; try discriminate.
  cbn [bind] in Hx.
  destruct (getitem om (i + 1)) as [v|] eqn:Ev; try discriminate.
  cbn [bind] in Hx.
  now rewrite (getitem_nth om i u 0 Eu), (getitem_nth om (i + 1) v 0 Ev).
Qed.

Lemma sampled_w_180_brackets (L : numlib) (om : list R) (ev : R -> C)
  (ws : list R) :
  sampled_w_180 L om ev = Ok ws ->
  refine_brackets L om (arg ev) (phase_brackets om ev) = Ok ws.
Proof.
  unfold sampled_w_180. intros H.
  destruct (mapM (getitem om) _) as [at_widx|] eqn:E; try discriminate.
  cbn [bind] in H.
  now rewrite (mapM_getitem _ _ _ E), map_map, mask_select_map in H.
Qed.

(** X8: in the sampled path every sign change of [|G| - 1] between adjacent
    samples gives exactly one gain crossover, the answer of the root-finder
    on the bracket of the two samples, in the order of the grid; the test
    [i + 1 < len(omega)] discards none of them. *)
Theorem sampled_crossovers_one_per_bracket (L : numlib) (om : list R)
  (ev : R -> C) (wc : list R) :
  sampled_wc L om ev = Ok wc ->
  Forall2 (fun i x =>
             brentq L (mod_ ev) (nth i om 0) (nth (i + 1) om 0) = Ok x)
          (gain_brackets om ev) wc /\
  length wc = length (gain_brackets om ev).
Proof.
  intros Hwc.
  assert (H1 : Forall2 (fun i x =>
             brentq L (mod_ ev) (nth i om 0) (nth (i + 1) om 0) = Ok x)
          (gain_brackets om ev) wc).
  { apply refine_brackets_Forall2 with (map sign (map (mod_ ev) om)); auto.
    now rewrite !length_map. }
  split; auto. symmetry. eapply Forall2_length; eauto.
Qed.

Lemma sample_sampled_wc :
  sampled_wc sample_lib (omega sample_frd) sample_response = Ok [1; 2].
Proof.
  unfold sampled_wc. fold (gain_brackets (omega sample_frd) sample_response).
  rewrite sample_gain_brackets. reflexivity.
Qed.

Lemma sampled_crossovers_one_per_bracket_witness :
  length [1; 2] = length (gain_brackets (omega sample_frd) sample_response).
Proof.
  apply (sampled_crossovers_one_per_bracket sample_lib (omega sample_frd)
           sample_response [1; 2] sample_sampled_wc).
Defined.

(** X16: in the sampled path, for a response that is nowhere on the
    non-negative real axis (where the sign of a zero decides the phase of
    [-G]), every sign change of the phase function between adjacent samples
    at a sample with non-positive real part gives exactly one phase
    crossover, the answer of the root-finder on the bracket of the two
    samples; the test [i + 1 < len(omega)] discards none of them. *)
Theorem sampled_phase_crossovers_one_per_bracket (L : numlib) (om : list R)
  (ev : R -> C) (w_180 : list R) :
  (forall w, ~ (Im (ev w) = 0 /\ 0 <= Re (ev w))) ->
  sampled_w_180 L om ev = Ok w_180 ->
  Forall2 (fun i x =>
             brentq L (arg ev) (nth i om 0) (nth (i + 1) om 0) = Ok x)
          (phase_brackets om ev) w_180 /\
  length w_180 = length (phase_brackets om ev) /\
  (forall i, In i (phase_brackets om ev) -> Re (ev (nth i om 0)) <= 0).
Proof.
  intros _ Hw.
  assert (H2 : Forall2 (fun i x =>
             brentq L (arg ev) (nth i om 0) (nth (i + 1) om 0) = Ok x)
          (phase_brackets om ev) w_180).
  { apply sampled_w_180_brackets in Hw.
    apply refine_brackets_Forall2 with (map sign (map (arg ev) om)); auto.
    - now rewrite !length_map.
    - intros i Hi. unfold phase_brackets in Hi.
      now apply filter_In in Hi as [Hi _]. }
  split; [exact H2|]. split.
  - symmetry. eapply Forall2_length; eauto.
  - intros i Hi. unfold phase_brackets in Hi.
    apply filter_In in Hi as [_ Hi]. now apply Rleb_true in Hi.
Qed.

Lemma sampled_phase_crossovers_one_per_bracket_witness :
  exists w_180,
    sampled_w_180 sample_lib [1; 2; 3] lead_response = Ok w_180 /\
    length w_180 = length (phase_brackets [1; 2; 3] lead_response).
Proof.
  destruct (sampled_w_180_total sample_lib [1; 2; 3] lead_response
              sample_lib_brentq) as [w_180 Hw].
  exists w_180. split; [exact Hw|].
  apply (sampled_phase_crossovers_one_per_bracket sample_lib [1; 2; 3]
           lead_response w_180); [|exact Hw].
  intros w [_ H]. unfold lead_response, Re in H; simpl in H. lra.
Defined.

(** ** The sampled path: when it returns *)

Lemma py_slice_window_length {A : Type} (a : list A) (i : nat) :
  (1 <= i)%nat -> (i + 1 < length a)%nat ->
  length (py_slice (Z.of_nat i - 1) (Z.of_nat i + 2) a) = 3%nat.
Proof.
  intros H1 H2. unfold py_slice.
  destruct (Z.ltb_spec (Z.of_nat i - 1) 0); [lia|].
  destruct (Z.ltb_spec (Z.of_nat i + 2) 0); [lia|].
  rewrite length_firstn, length_skipn. lia.
Qed.

Lemma stab_bracket_ok_inner (om : list R) (ev : R -> C) (i : nat) :
  (1 <= i)%nat -> (i + 1 < length om)%nat ->
  exists b, stab_bracket_ok om ev i = Ok b.
Proof.
  intros H1 H2. unfold stab_bracket_ok.
  replace (Nat.ltb (i + 1) (length om)) with true
    by (symmetry; now apply Nat.ltb_lt).
  destruct (getitem_ok
              (diff (diff (map (dstab ev)
                 (py_slice (Z.of_nat i - 1) (Z.of_nat i + 2) om)))) 0)
    as [dd ->].
  - rewrite !diff_length, length_map, py_slice_window_length; auto.
  - cbn [bind]. eauto.
Qed.

Lemma stab_candidates_total (L : numlib) (om : list R) (ev : R -> C)
  (widx : list nat) :
  (forall g a b, exists x, minimize_scalar L g a b = Ok x) ->
  (forall i, In i widx -> (1 <= i)%nat /\ (i + 1 < length om)%nat) ->
  exists l, stab_candidates L om ev widx = Ok l.
Proof.
  intros Hm. induction widx as [|i t IH]; intros Hb; cbn [stab_candidates];
    eauto.
  destruct (Hb i (or_introl eq_refl)) as [H1 H2].
  destruct (stab_bracket_ok_inner om ev i H1 H2) as [keep ->]. cbn [bind].
  destruct IH as [l Hl]; [intros j Hj; apply Hb; now right|].
  destruct keep; eauto.
  destruct (getitem_ok om i) as [a ->]; [lia|]. cbn [bind].
  destruct (getitem_ok om (i + 1)) as [b ->]; [lia|]. cbn [bind].
  destruct (Hm (dstab ev) a b) as [x ->]. cbn [bind].
  rewrite Hl. cbn [bind]. eauto.
Qed.

Lemma stab_brackets_bound (om : list R) (ev : R -> C) (i : nat) :
  In i (stab_brackets om ev) -> (i + 2 < length om)%nat.
Proof.
  intros H. unfold stab_brackets in H. apply where_nz_diff_bound in H.
  rewrite length_map, diff_length, length_map in H. lia.
Qed.

Lemma sampled_wstab_total (L : numlib) (om : list R) (ev : R -> C) :
  om <> [] ->
  (forall g a b, exists x, minimize_scalar L g a b = Ok x) ->
  ~ In 0%nat (stab_brackets om ev) ->
  exists l, sampled_wstab L om ev = Ok l.
Proof.
  intros Hne Hm H0. unfold sampled_wstab. fold (stab_brackets om ev).
  destruct (stab_candidates_total L om ev (stab_brackets om ev) Hm)
    as [l ->].
  - intros i Hi. pose proof (stab_brackets_bound om ev i Hi).
    split; [|lia]. destruct i; [contradiction|lia].
  - cbn [bind].
    destruct (getitem_ok om 0) as [lo ->];
      [destruct om; [contradiction|simpl; lia]|].
    cbn [bind]. unfold getlast.
    destruct (getitem_ok (rev om) 0) as [hi ->];
      [rewrite length_rev; destruct om; [contradiction|simpl; lia]|].
    cbn [bind]. eauto.
Qed.

Lemma where_from_head (k : nat) (a : list R) :
  In k (where_from k a) -> exists t, where_from k a = k :: t.
Proof.
  destruct a as [|x t]; [contradiction|]. cbn [where_from].
  destruct (Reqb x 0); eauto.
  intros H. apply where_from_bound in H. lia.
Qed.

Lemma sampled_wstab_front_bracket (L : numlib) (om : list R) (ev : R -> C) :
  In 0%nat (stab_brackets om ev) ->
  sampled_wstab L om ev = Raise IndexError.
Proof.
  intros H. pose proof (stab_brackets_bound om ev 0 H) as Hlen.
  unfold sampled_wstab. fold (stab_brackets om ev).
  unfold stab_brackets, where_nz in H |- *.
  destruct (where_from_head 0 _ H) as [t ->].
  cbn [stab_candidates]. rewrite stab_bracket_ok_front by lia. reflexivity.
Qed.

Lemma stability_margins_frd_returns (L : numlib) (s : sysdata)
  (om : list R) (ev : R -> C) (returnall : bool) (epsw : R) :
  dispatch L s = Ok (LtiFRD om ev) ->
  om <> [] ->
  (forall g a b, exists x, brentq L g a b = Ok x) ->
  (forall g a b, exists x, minimize_scalar L g a b = Ok x) ->
  ~ In 0%nat (stab_brackets om ev) ->
  exists t, stability_margins L s returnall epsw = Ok t.
Proof.
  intros Hd Hne Hb Hm H0. unfold stability_margins.
  rewrite Hd. cbn [bind crossovers].
  destruct (sampled_wc_total L om ev Hb) as [wc ->]. cbn [bind].
  destruct (sampled_w_180_total L om ev Hb) as [w_180 ->]. cbn [bind].
  destruct (sampled_wstab_total L om ev Hne Hm H0) as [wstab ->]. cbn [bind].
  destruct returnall; eauto.
  set (GM := map _ w_180). set (SM := map _ wstab). set (PM := map _ wc).
  destruct (reduction_consistent GM w_180) as (gm & wg & -> & -> & _);
    [apply length_map|].
  destruct (reduction_consistent PM wc) as (pm & wp & -> & -> & _);
    [apply length_map|].
  destruct (reduction_consistent SM wstab) as (sm & ws & -> & -> & _);
    [apply length_map|].
  cbn [bind]. eauto.
Qed.

(** X9: on a non-empty grid and with solvers that return, the sampled path
    of [stability_margins] returns a result, in either mode, exactly when
    the first differences of [|G + 1|] do not change sign between the first
    two intervals of the grid. *)
Theorem sampled_path_returns_iff (L : numlib) (s : sysdata) (om : list R)
  (ev : R -> C) (returnall : bool) (epsw : R) :
  dispatch L s = Ok (LtiFRD om ev) ->
  om <> [] ->
  (forall g a b, exists x, brentq L g a b = Ok x) ->
  (forall g a b, exists x, minimize_scalar L g a b = Ok x) ->
  ((exists t, stability_margins L s returnall epsw = Ok t) <->
   ~ In 0%nat (stab_brackets om ev)).
Proof.
  intros Hd Hne Hb Hm. split.
  - intros [t Ht] H0.
    rewrite (stability_margins_raise L s (LtiFRD om ev) returnall epsw
               IndexError Hd) in Ht; [discriminate|].
    cbn [crossovers].
    destruct (sampled_wc_total L om ev Hb) as [wc ->]. cbn [bind].
    destruct (sampled_w_180_total L om ev Hb) as [w_180 ->]. cbn [bind].
    now rewrite sampled_wstab_front_bracket.
  - now apply stability_margins_frd_returns.
Qed.

Lemma sample4_stab_brackets :
  stab_brackets (omega sample_frd4) sample_response = [1%nat].
Proof.
  unfold stab_brackets. cbn [omega sample_frd4 map].
  rewrite !dstab_sample. cbn [diff map]. unfold sign.
  repeat Rcond. cbn [diff]. unfold where_nz. cbn [where_from].
  repeat Rcond. reflexivity.
Qed.

Lemma sample_lib_minimize (g : R -> R) (a b : R) :
  exists x, minimize_scalar sample_lib g a b = Ok x.
Proof. now exists a. Qed.

Lemma sample4_no_front_bracket :
  ~ In 0%nat (stab_brackets (omega sample_frd4) sample_response).
Proof.
  rewrite sample4_stab_brackets. intros [H|[]]. discriminate.
Qed.

Lemma sampled_path_returns_iff_witness :
  exists t,
    stability_margins sample_lib (SysFRD sample_frd4) false epsw_default
    = Ok t.
Proof.
  apply (sampled_path_returns_iff sample_lib (SysFRD sample_frd4)
           (omega sample_frd4) sample_response false epsw_default eq_refl).
  - discriminate.
  - apply sample_lib_brentq.
  - apply sample_lib_minimize.
  - apply sample4_no_front_bracket.
Defined.

(** ** The sampled path: the range of the stability candidates *)

(** X10: the stability-margin frequencies that the sampled path returns
    lie between the first and the last frequency of the grid; a candidate
    of the minimizer outside this range is dropped. *)
Theorem sampled_wstab_in_range (L : numlib) (s : sysdata) (om : list R)
  (ev : R -> C) (epsw : R) (t : tuple6) :
  dispatch L s = Ok (LtiFRD om ev) ->
  stability_margins L s true epsw = Ok t ->
  exists lo hi wstab,
    getitem om 0 = Ok lo /\ getlast om = Ok hi /\ item5 t = Arr wstab /\
    forall w, In w wstab -> lo <= w <= hi.
Proof.
  intros Hd H. unfold stability_margins in H.
  rewrite Hd in H. cbn [bind crossovers] in H.
  destruct (sampled_wc L om ev) as [wc|]; try discriminate.
  cbn [bind] in H.
  destruct (sampled_w_180 L om ev) as [w_180|]; try discriminate.
  cbn [bind] in H.
  destruct (sampled_wstab L om ev) as [wstab|] eqn:E; try discriminate.
  cbn [bind] in H. injection H as <-.
  unfold sampled_wstab in E.
  destruct (stab_candidates L om ev _) as [cands|]; try discriminate.
  cbn [bind] in E.
  destruct (getitem om 0) as [lo|]; try discriminate. cbn [bind] in E.
  destruct (getlast om) as [hi|]; try discriminate. cbn [bind] in E.
  injection E as <-.
  exists lo, hi. eexists. repeat split; try reflexivity.
  - rewrite map2_map, mask_select_map in H. apply filter_In in H as [_ H].
    apply andb_true_iff in H as [H _]. now apply Rleb_true.
  - rewrite map2_map, mask_select_map in H. apply filter_In in H as [_ H].
    apply andb_true_iff in H as [_ H]. now apply Rleb_true.
Qed.

Lemma sampled_wstab_in_range_witness :
  exists t lo hi wstab,
    stability_margins sample_lib (SysFRD sample_frd4) true epsw_default
    = Ok t /\
    item5 t = Arr wstab /\ forall w, In w wstab -> lo <= w <= hi.
Proof.
  destruct (stability_margins_frd_returns sample_lib (SysFRD sample_frd4)
              (omega sample_frd4) sample_response true epsw_default eq_refl)
    as [t Ht].
  - discriminate.
  - apply sample_lib_brentq.
  - apply sample_lib_minimize.
  - apply sample4_no_front_bracket.
  - destruct (sampled_wstab_in_range sample_lib (SysFRD sample_frd4)
                (omega sample_frd4) sample_response epsw_default t eq_refl Ht)
      as (lo & hi & wstab & _ & _ & H1 & H2).
    exists t, lo, hi, wstab. auto.
Defined.

(** ** The polynomial of [phase_crossover_frequencies] *)

Ltac Cring :=
  repeat match goal with
         | z : C |- _ => destruct z
         end;
  unfold cadd, cmul, cneg, cconj, RtoC, Ci, Re, Im; cbn [fst snd];
  f_equal; ring.

Lemma ccpolyval_rev (p : list C) (x : C) :
  ccpolyval p x = cceval_low (rev p) x.
Proof.
  unfold ccpolyval. rewrite <- fold_left_rev_right.
  induction (rev p) as [|c t IH]; simpl; auto.
  rewrite IH. generalize (cceval_low t x). intros e. Cring.
Qed.

Lemma cceval_low_app (a b : list C) (x : C) :
  cceval_low (a ++ b) x =
  cadd (cceval_low a x) (cmul (cpow x (length a)) (cceval_low b x)).
Proof.
  induction a as [|c t IH]; cbn [app cceval_low length cpow].
  - generalize (cceval_low b x). intros e. Cring.
  - rewrite IH.
    generalize (cceval_low t x) (cceval_low b x) (cpow x (length t)).
    intros e1 e2 e3. Cring.
Qed.

Lemma cceval_low_zeros (n : nat) (x : C) :
  cceval_low (repeat (RtoC 0) n) x = RtoC 0.
Proof.
  induction n as [|n IH]; cbn [repeat cceval_low]; auto.
  rewrite IH. Cring.
Qed.

Lemma ccpolyval_app (a b : list C) (x : C) :
  ccpolyval (a ++ b) x =
  cadd (cmul (ccpolyval a x) (cpow x (length b))) (ccpolyval b x).
Proof.
  rewrite !ccpolyval_rev, rev_app_distr, cceval_low_app, length_rev.
  generalize (cceval_low (rev a) x) (cceval_low (rev b) x)
             (cpow x (length b)).
  intros e1 e2 e3. Cring.
Qed.

Lemma ccpolyval_zeros (n : nat) (x : C) :
  ccpolyval (repeat (RtoC 0) n) x = RtoC 0.
Proof.
  rewrite ccpolyval_rev, rev_repeat. apply cceval_low_zeros.
Qed.

Lemma ccpolyval_cons (c : C) (t : list C) (x : C) :
  ccpolyval (c :: t) x =
  cadd (cmul c (cpow x (length t))) (ccpolyval t x).
Proof.
  change (c :: t) with ([c] ++ t). rewrite ccpolyval_app.
  unfold ccpolyval at 1. cbn [fold_left].
  generalize (cpow x (length t)) (ccpolyval t x). intros e1 e2. Cring.
Qed.

Lemma ccpolyval_pad_front (n : nat) (a : list C) (x : C) :
  ccpolyval (pad_front (RtoC 0) n a) x = ccpolyval a x.
Proof.
  unfold pad_front. rewrite ccpolyval_app, ccpolyval_zeros.
  generalize (cpow x (length a)) (ccpolyval a x). intros e1 e2. Cring.
Qed.

Lemma chorner_map2_add (a b : list C) (x : C) :
  length a = length b ->
  forall y1 y2,
    fold_left (fun y pv => cadd (cmul y x) pv) (map2 cadd a b) (cadd y1 y2) =
    cadd (fold_left (fun y pv => cadd (cmul y x) pv) a y1)
         (fold_left (fun y pv => cadd (cmul y x) pv) b y2).
Proof.
  revert b. induction a as [|u a IH]; intros [|v b] Hlen y1 y2;
    try discriminate; auto.
  rewrite map2_cons. cbn [fold_left].
  rewrite <- IH by (simpl in Hlen; congruence).
  f_equal. Cring.
Qed.

Lemma ccpolyval_cpolyadd (a b : list C) (x : C) :
  ccpolyval (cpolyadd a b) x = cadd (ccpolyval a x) (ccpolyval b x).
Proof.
  unfold cpolyadd.
  rewrite <- (ccpolyval_pad_front (Nat.max (length a) (length b)) a x).
  rewrite <- (ccpolyval_pad_front (Nat.max (length a) (length b)) b x).
  unfold ccpolyval at 1.
  replace (RtoC 0) with (cadd (RtoC 0) (RtoC 0)) at 3 by Cring.
  apply chorner_map2_add. rewrite !pad_front_length; lia.
Qed.


Lemma ccpolyval_ctrim (a : list C) (x : C) :
  ccpolyval (ctrim_zeros_f a) x = ccpolyval a x.
Proof.
  induction a as [|c t IH]; cbn [ctrim_zeros_f]; auto.
  destruct (Ceqb c (RtoC 0)) eqn:E; auto.
  apply Ceqb_true in E. subst c. rewrite IH, ccpolyval_cons.
  generalize (cpow x (length t)) (ccpolyval t x). intros e1 e2. Cring.
Qed.

Lemma ccpolyval_cpoly1d (a : list C) (x : C) :
  ccpolyval (cpoly1d a) x = ccpolyval a x.
Proof.
  unfold cpoly1d. rewrite <- (ccpolyval_ctrim a).
  destruct (ctrim_zeros_f a); auto.
  unfold ccpolyval; simpl. Cring.
Qed.

Lemma ccpolyval_scale (c : C) (b : list C) (x : C) :
  ccpolyval (map (cmul c) b) x = cmul c (ccpolyval b x).
Proof.
  induction b as [|u b IH]; cbn [map].
  - unfold ccpolyval; simpl. Cring.
  - rewrite !ccpolyval_cons, IH, length_map.
    generalize (cpow x (length b)) (ccpolyval b x). intros e1 e2. Cring.
Qed.

Lemma ccpolyval_cconvolve (a b : list C) (x : C) :
  ccpolyval (cconvolve a b) x = cmul (ccpolyval a x) (ccpolyval b x).
Proof.
  induction a as [|c t IH].
  - unfold ccpolyval at 1 2; simpl.
    generalize (ccpolyval b x). intros e. Cring.
  - destruct t as [|c' t'].
    + cbn [cconvolve]. rewrite ccpolyval_scale.
      unfold ccpolyval at 2; simpl.
      generalize (ccpolyval b x). intros e. Cring.
    + change (cconvolve (c :: c' :: t') b)
        with (cpolyadd (map (cmul c) b ++ repeat (RtoC 0) (length (c' :: t')))
                       (cconvolve (c' :: t') b)).
      rewrite ccpolyval_cpolyadd, ccpolyval_app, ccpolyval_zeros,
        ccpolyval_scale, IH, repeat_length, (ccpolyval_cons c).
      generalize (cpow x (length (c' :: t'))) (ccpolyval (c' :: t') x)
                 (ccpolyval b x).
      intros e1 e2 e3. Cring.
Qed.

Lemma ccpolyval_cpolymul (a b : list C) (x : C) :
  ccpolyval (cpolymul a b) x = cmul (ccpolyval a x) (ccpolyval b x).
Proof.
  unfold cpolymul. now rewrite ccpolyval_cconvolve, !ccpolyval_cpoly1d.
Qed.

(** The imaginary parts of the coefficients give the imaginary part of the
    value at a real argument. *)
Lemma polyval_Im (p : list C) (w : R) :
  polyval (map Im p) w = Im (ccpolyval p (RtoC w)).
Proof.
  rewrite polyval_rev, ccpolyval_rev, <- map_rev.
  induction (rev p) as [|c t IH]; cbn [map eval_low cceval_low].
  - reflexivity.
  - rewrite IH. generalize (cceval_low t (RtoC w)). intros e.
    destruct c, e. unfold cadd, cmul, RtoC, Re, Im; cbn [fst snd]. ring.
Qed.

(** The coefficients [a^k * c_k] give the polynomial at [a * w]. *)
Lemma cceval_low_powers (a : C) (l : list R) (w : R) (s : nat) :
  cceval_low (map2 (fun k c => cmul (cpow a k) (RtoC c)) (seq s (length l)) l)
             (RtoC w)
  = cmul (cpow a s) (ceval_low l (cmul a (RtoC w))).
Proof.
  revert s. induction l as [|c t IH]; intros s.
  - cbn [length seq map2 combine map cceval_low ceval_low].
    generalize (cpow a s). intros e. Cring.
  - cbn [length seq]. rewrite map2_cons. cbn [cceval_low ceval_low].
    rewrite IH. cbn [cpow].
    generalize (cpow a s) (ceval_low t (cmul a (RtoC w))). intros e1 e2.
    destruct a as [a1 a2]. Cring.
Qed.

Lemma ccpolyval_powers (a : C) (p : poly) (w : R) :
  ccpolyval (map2 (fun k c => cmul (cpow a k) (RtoC c))
                  (powers_down (length p)) p) (RtoC w)
  = cpolyval p (cmul a (RtoC w)).
Proof.
  rewrite ccpolyval_rev, cpolyval_rev, rev_map2.
  - unfold powers_down. rewrite rev_involutive, <- (length_rev p).
    rewrite cceval_low_powers. cbn [cpow].
    generalize (ceval_low (rev p) (cmul a (RtoC w))). intros e. Cring.
  - unfold powers_down. now rewrite length_rev, length_seq.
Qed.

(** A polynomial with real coefficients at [-j w] is the conjugate of its
    value at [j w]. *)
Lemma cpolyval_conj (p : poly) (w : R) :
  cpolyval p (cmul (cneg Ci) (RtoC w)) = cconj (cpolyval p (jw w)).
Proof.
  rewrite !cpolyval_rev.
  induction (rev p) as [|c t IH]; cbn [ceval_low].
  - Cring.
  - rewrite IH. unfold jw. generalize (ceval_low t (cmul Ci (RtoC w))).
    intros e. Cring.
Qed.

Lemma crossing_poly_conj (n d : poly) (w : R) :
  polyval (crossing_poly n d) w
  = Im (cmul (cpolyval n (jw w)) (cconj (cpolyval d (jw w)))).
Proof.
  unfold crossing_poly.
  rewrite polyval_Im, ccpolyval_cpolymul, !ccpolyval_powers.
  now rewrite cpolyval_conj.
Qed.

Lemma crossing_poly_test_w_180 (n d : poly) (w : R) :
  polyval (crossing_poly n d) w = polyval (test_w_180 n d) w.
Proof.
  rewrite crossing_poly_conj, test_w_180_value.
  destruct (polyimsplit_values n w) as (-> & ->).
  destruct (polyimsplit_values d w) as (-> & ->).
  destruct (cpolyval n (jw w)), (cpolyval d (jw w)).
  unfold cmul, cconj, Re, Im; cbn [fst snd]. ring.
Qed.

Lemma polyimsplit_imag_at_0 (p : poly) :
  polyval (snd (_polyimsplit p)) 0 = 0.
Proof.
  destruct (polyimsplit_low p) as [_ Hlow].
  rewrite polyval_rev, Hlow.
  destruct (rev p) as [|c t]; [reflexivity|].
  change (zeros_like (c :: t)) with (0 :: zeros_like t).
  cbn [assign_every4]. rewrite map2_cons. cbn [eval_low]. ring.
Qed.

Lemma crossing_poly_at_0 (n d : poly) : polyval (crossing_poly n d) 0 = 0.
Proof.
  rewrite crossing_poly_conj, !cpolyval_split.
  unfold cmul, cconj, Re, Im; cbn [fst snd].
  rewrite !polyimsplit_imag_at_0. ring.
Qed.

(** X11: at every real [w] the polynomial whose roots
    [phase_crossover_frequencies] takes has the value of the imaginary part
    of [N(jw) conj(D(jw))], which is also the value of the polynomial
    [Ni Dr - Nr Di] of the phase crossovers of [stability_margins]; it
    vanishes at 0. *)
Theorem crossing_poly_value (n d : poly) (w : R) :
  polyval (crossing_poly n d) w
  = Im (cmul (cpolyval n (jw w)) (cconj (cpolyval d (jw w)))) /\
  polyval (crossing_poly n d) w = polyval (test_w_180 n d) w /\
  polyval (crossing_poly n d) 0 = 0.
Proof.
  split; [apply crossing_poly_conj|].
  split; [apply crossing_poly_test_w_180|apply crossing_poly_at_0].
Qed.

Lemma Forall2_map_self {A B : Type} (P : A -> B -> Prop) (h : A -> B)
  (l : list A) :
  (forall x, In x l -> P x (h x)) -> Forall2 P l (map h l).
Proof.
  induction l as [|x l IH]; intros H; cbn [map]; constructor.
  - apply H. now left.
  - apply IH. intros y Hy. apply H. now right.
Qed.

(** X12: when the root finder lists the real zeros of the crossing
    polynomial, the frequencies that [phase_crossover_frequencies] returns
    are exactly the non-negative real zeros of [Ni Dr - Nr Di]; the
    frequency 0 is always among them, as no [epsw] is applied; at each
    frequency at which the denominator is not zero the response is real and
    the gain returned with it is that response. *)
Theorem pcf_crossings_on_real_axis (L : numlib) (s : sysdata)
  (tf : TransferFunction) (n d : poly) (freq gain : list R) :
  _convertToTransferFunction s = Ok tf ->
  channel00 (num tf) = Ok n ->
  channel00 (den tf) = Ok d ->
  real_roots_ok (crossing_poly n d) (roots L (crossing_poly n d)) ->
  phase_crossover_frequencies L s = Ok (freq, gain) ->
  In 0 freq /\
  (forall f, In f freq <-> 0 <= f /\ polyval (test_w_180 n d) f = 0) /\
  Forall2 (fun f g => cpolyval d (jw f) <> RtoC 0 -> horner n d f = (g, 0))
          freq gain.
Proof.
  intros Hs Hn Hd Hroots H.
  rewrite (pcf_value L s tf n d Hs Hn Hd) in H. injection H as <- <-.
  assert (Hmem : forall f, In f (crossing_frequencies L n d) <->
                   0 <= f /\ polyval (test_w_180 n d) f = 0).
  { intros f. rewrite crossing_frequencies_In, (Hroots f).
    rewrite crossing_poly_test_w_180. tauto. }
  split; [|split; [exact Hmem|]].
  - apply Hmem. split; [lra|].
    rewrite <- crossing_poly_test_w_180. apply crossing_poly_at_0.
  - apply Forall2_map_self. intros f Hf. cbv beta. intros _.
    apply Hmem in Hf as [_ Hz].
    assert (Hi : Im (horner n d f) = 0).
    { rewrite horner_imag_part, <- test_w_180_value, Hz.
      unfold Rdiv. ring. }
    rewrite (surjective_pairing (horner n d f)) at 1.
    fold (Re (horner n d f)). fold (Im (horner n d f)). now rewrite Hi.
Qed.

Lemma doc_den_0 : cpolyval doc_den (jw 0) <> RtoC 0.
Proof.
  rewrite cpolyval_split. unfold doc_den, polyval. Rcbn.
  cbn [fold_left]. unfold RtoC. intros H. injection H as H _. lra.
Qed.

Lemma pcf_crossings_on_real_axis_witness :
  In 0 [sqrt 3; 0] /\ horner doc_num doc_den 0 = (1 / 4, 0).
Proof.
  destruct (pcf_crossings_on_real_axis doc_lib
              (SysTF (tf_siso doc_num doc_den)) (tf_siso doc_num doc_den)
              doc_num doc_den [sqrt 3; 0] [-1 / 2; 1 / 4]
              eq_refl eq_refl eq_refl doc_roots_ok doc_pcf)
    as (H1 & _ & H2).
  split; [assumption|].
  inversion H2 as [|? ? ? ? _ H3]; subst.
  inversion H3 as [|? ? ? ? H4 _]; subst.
  apply H4, doc_den_0.
Defined.

(** ** The response built from magnitudes and phases *)

Lemma cabs_polar (m theta : R) :
  cabs (cmul (RtoC m) (cexp_j theta)) = Rabs m.
Proof.
  unfold cabs, cmul, RtoC, cexp_j, Re, Im. cbn [fst snd].
  rewrite <- sqrt_Rsqr_abs. f_equal.
  pose proof (sin2_cos2 theta) as H. unfold Rsqr in *.
  transitivity (m * m * (sin theta * sin theta + cos theta * cos theta));
    [ring|rewrite H; ring].
Qed.

(** X13: for magnitudes and phases of one length, the samples that
    [stability_margins] hands to the frequency response object have the
    given magnitudes in absolute value, one sample per pair, and the
    sampled path runs on the grid [omega] that was passed; an exception of
    the constructor becomes the [ValueError] on [sysdata]. *)
Theorem seq3_response_magnitude (L : numlib) (mag phase om : list R) :
  length mag = length phase ->
  exists resp,
    map cabs resp = map Rabs mag /\
    length resp = length mag /\
    dispatch L (SysSeq3 mag phase om) =
    match frd_smooth L resp om with
    | Ok ev => Ok (LtiFRD om ev)
    | Raise _ => Raise ValueError_sysdata
    end.
Proof.
  intros Hlen.
  exists (map2 (fun m ph => cmul (RtoC m) (cexp_j (ph * PI / 180)))
            mag phase).
  split; [|split].
  - revert phase Hlen. induction mag as [|m mag IH]; intros [|ph phase] Hlen;
      try discriminate; auto.
    rewrite map2_cons. cbn [map]. rewrite cabs_polar. f_equal.
    apply IH. simpl in Hlen. congruence.
  - now apply map2_length.
  - unfold dispatch. destruct (frd_smooth L _ om); reflexivity.
Qed.

Lemma seq3_response_magnitude_witness :
  exists resp, map cabs resp = map Rabs [2; 3] /\ length resp = 2%nat.
Proof.
  destruct (seq3_response_magnitude sample_lib [2; 3] [90; 180] [1; 2]
              eq_refl) as (resp & H1 & H2 & _).
  exists resp. split; assumption.
Defined.

(** ** The coefficients of the split polynomials *)

Lemma rpencil_at_period (r q : nat) :
  rpencil_at (r + q * 4) = rpencil_at r.
Proof. unfold rpencil_at. now rewrite Nat.Div0.mod_add. Qed.

Lemma ipencil_at_shift (e : nat) : ipencil_at e = rpencil_at (e + 3).
Proof.
  unfold ipencil_at, rpencil_at.
  rewrite <- (Nat.Div0.add_mod_idemp_l e 3 4).
  pose proof (Nat.mod_upper_bound e 4) as H.
  destruct (e mod 4)%nat as [|[|[|[|m]]]]; try reflexivity. lia.
Qed.

Lemma pencil_phases_coefficients (l : list R) :
  forall q,
  let pen a b := assign_every4 a (-1) (assign_every4 b 1 (zeros_like l)) in
  pen 2%nat 0%nat = map rpencil_at (seq (0 + q * 4) (length l)) /\
  pen 1%nat 3%nat = map rpencil_at (seq (1 + q * 4) (length l)) /\
  pen 0%nat 2%nat = map rpencil_at (seq (2 + q * 4) (length l)) /\
  pen 3%nat 1%nat = map rpencil_at (seq (3 + q * 4) (length l)).
Proof.
  cbv zeta. induction l as [|c t IH]; intros q.
  - repeat split; reflexivity.
  - destruct (IH q) as (H0 & H1 & H2 & H3).
    destruct (IH (S q)) as (H0' & _).
    change (zeros_like (c :: t)) with (0 :: zeros_like t).
    cbn [assign_every4 length seq map].
    rewrite !rpencil_at_period.
    change (S (0 + q * 4)) with (1 + q * 4)%nat.
    change (S (1 + q * 4)) with (2 + q * 4)%nat.
    change (S (2 + q * 4)) with (3 + q * 4)%nat.
    replace (S (3 + q * 4)) with (0 + S q * 4)%nat by lia.
    rewrite H0', H1, H2, H3.
    repeat split; reflexivity.
Qed.

Lemma polyimsplit_low_coefficients (p : poly) :
  rev (fst (_polyimsplit p)) =
    map2 Rmult (rev p) (map rpencil_at (seq 0 (length p))) /\
  rev (snd (_polyimsplit p)) =
    map2 Rmult (rev p) (map ipencil_at (seq 0 (length p))).
Proof.
  destruct (polyimsplit_low p) as [-> ->].
  destruct (pencil_phases_coefficients (rev p) 0) as (H0 & _ & _ & H3).
  cbv zeta in H0, H3. rewrite H0, H3, length_rev. split; [reflexivity|].
  f_equal. cbn [Nat.add Nat.mul].
  rewrite <- seq_shift, <- seq_shift, <- seq_shift, !map_map.
  apply map_ext. intros e. rewrite ipencil_at_shift. f_equal. lia.
Qed.

Lemma nth_map2_mult (a b : list R) (j : nat) :
  length a = length b ->
  nth j (map2 Rmult a b) 0 = nth j a 0 * nth j b 0.
Proof.
  revert b j. induction a as [|x a IH]; intros [|y b] j Hlen;
    try discriminate.
  - destruct j; simpl; ring.
  - rewrite map2_cons. destruct j; [reflexivity|].
    cbn [nth]. apply IH. simpl in Hlen. congruence.
Qed.

Lemma nth_of_rev (a b : list R) (k : nat) :
  rev a = b -> (k < length a)%nat ->
  nth k a 0 = nth (length a - S k) b 0.
Proof.
  intros <- Hk. rewrite <- (rev_involutive a) at 1.
  rewrite rev_nth by (now rewrite length_rev). now rewrite length_rev.
Qed.

(** X14: at every position of its input [_polyimsplit] puts the coefficient
    of [s^e], with [e] the power of the position, into the real polynomial
    with the factor 1 for [e = 0 mod 4] and -1 for [e = 2 mod 4], into the
    imaginary polynomial with the factor 1 for [e = 1 mod 4] and -1 for
    [e = 3 mod 4], and puts zero into the other polynomial. *)
Theorem polyimsplit_coefficients (p : poly) (k : nat) :
  (k < length p)%nat ->
  nth k (fst (_polyimsplit p)) 0
  = nth k p 0 * rpencil_at (length p - 1 - k) /\
  nth k (snd (_polyimsplit p)) 0
  = nth k p 0 * ipencil_at (length p - 1 - k).
Proof.
  intros Hk.
  destruct (polyimsplit_low_coefficients p) as [Hr Hi].
  destruct (polyimsplit_lengths p) as (Lr & Li).
  assert (Hj : (length p - S k < length p)%nat) by lia.
  assert (Hp : nth (length p - S k) (rev p) 0 = nth k p 0).
  { rewrite rev_nth by lia. f_equal. lia. }
  assert (Hs : forall f, nth (length p - S k)
                             (map f (seq 0 (length p))) 0
                         = f (length p - 1 - k)%nat).
  { intros f. rewrite (nth_indep _ 0 (f 0%nat))
      by (now rewrite length_map, length_seq).
    rewrite map_nth, seq_nth by lia. f_equal. lia. }
  split.
  - rewrite (nth_of_rev _ _ k Hr) by lia. rewrite Lr.
    rewrite nth_map2_mult
      by (now rewrite length_rev, length_map, length_seq).
    now rewrite Hp, Hs.
  - rewrite (nth_of_rev _ _ k Hi) by lia. rewrite Li.
    rewrite nth_map2_mult
      by (now rewrite length_rev, length_map, length_seq).
    now rewrite Hp, Hs.
Qed.

Lemma polyimsplit_coefficients_witness :
  nth 1 (fst (_polyimsplit [1; 2; 3; 4; 5])) 0 = 2 * rpencil_at 3 /\
  nth 1 (snd (_polyimsplit [1; 2; 3; 4; 5])) 0 = 2 * ipencil_at 3.
Proof.
  apply (polyimsplit_coefficients [1; 2; 3; 4; 5] 1). simpl. lia.
Defined.

(** ** The ranges of the margins *)

Lemma arctan2_range (y x : R) : - PI < arctan2 y x <= PI.
Proof.
  pose proof PI_RGT_0 as Hpi. unfold arctan2.
  destruct (Rltb 0 x) eqn:E1.
  - pose proof (atan_bound (y / x)). lra.
  - destruct (Rltb x 0) eqn:E2.
    + apply Rltb_true in E2.
      assert (Hinv : / x < 0) by now apply Rinv_lt_0_compat.
      destruct (Rleb 0 y) eqn:E3.
      * apply Rleb_true in E3.
        pose proof (atan_bound (y / x)) as Hb.
        assert (Hle : atan (y / x) <= 0).
        { destruct E3 as [E3|<-].
          - left. rewrite <- atan_0. apply atan_increasing.
            unfold Rdiv. nra.
          - unfold Rdiv. rewrite Rmult_0_l, atan_0. lra. }
        lra.
      * apply Rleb_false in E3.
        pose proof (atan_bound (y / x)) as Hb.
        assert (Hgt : 0 < atan (y / x)).
        { rewrite <- atan_0. apply atan_increasing. unfold Rdiv. nra. }
        lra.
    + destruct (Rltb 0 y); [lra|]. destruct (Rltb y 0); lra.
Qed.

Lemma cabs_nonneg (z : C) : 0 <= cabs z.
Proof. apply sqrt_pos. Qed.

Lemma inv_cabs_nonneg (z : C) : 0 <= 1 / cabs z.
Proof.
  destruct (Req_dec_T (cabs z) 0) as [E|E].
  - rewrite E. unfold Rdiv. rewrite Rinv_0. lra.
  - pose proof (cabs_nonneg z).
    apply Rlt_le, Rdiv_lt_0_compat; lra.
Qed.

(** X15: the six arrays that [stability_margins] returns with [returnall]
    set pair up, margin by margin, with their frequency arrays, which are
    the three frequency sets found; every gain margin is non-negative;
    where no gain crossover is a pole of the transfer function, every phase
    margin lies in the interval from 0 to 360 degrees, since [np.angle]
    gives a phase from -180 to 180 degrees; where no stability candidate is
    a pole, every stability margin is non-negative. *)
Theorem margin_arrays_ranges (L : numlib) (s : sysdata) (sys : ltisys)
  (epsw : R) (w_180 wc wstab : list R) (ev : R -> C) (t : tuple6) :
  dispatch L s = Ok sys ->
  crossovers L sys epsw = Ok (w_180, wc, wstab, ev) ->
  stability_margins L s true epsw = Ok t ->
  exists GM PM SM,
    t = Tuple6 (Arr GM) (Arr PM) (Arr SM) (Arr w_180) (Arr wc) (Arr wstab) /\
    length GM = length w_180 /\ length PM = length wc /\
    length SM = length wstab /\
    Forall (fun g => 0 <= g) GM /\
    ((forall w, In w wc -> no_pole_at sys w) ->
     Forall (fun p => 0 <= p <= 360) PM) /\
    ((forall w, In w wstab -> no_pole_at sys w) ->
     Forall (fun m => 0 <= m) SM).
Proof.
  intros Hd Hc H. unfold stability_margins in H.
  rewrite Hd in H; cbn [bind] in H. rewrite Hc in H; cbn [bind] in H.
  injection H as <-.
  do 3 eexists. split; [reflexivity|].
  rewrite !length_map. repeat split; try intros _; apply Forall_forall;
    intros x Hx; apply in_map_iff in Hx as (w & <- & _).
  - apply inv_cabs_nonneg.
  - pose proof PI_RGT_0. pose proof (arctan2_range (Im (ev w)) (Re (ev w))).
    unfold angle. split.
    + replace (arctan2 (Im (ev w)) (Re (ev w)) * (180 / PI) + 180)
        with ((arctan2 (Im (ev w)) (Re (ev w)) + PI) * (180 / PI))
        by (field; lra).
      apply Rmult_le_pos; [lra|]. apply Rlt_le, Rdiv_lt_0_compat; lra.
    + replace 360 with (PI * (180 / PI) + 180) by (field; lra).
      apply Rplus_le_compat_r, Rmult_le_compat_r; [|lra].
      apply Rlt_le, Rdiv_lt_0_compat; lra.
  - apply cabs_nonneg.
Qed.

Lemma margin_arrays_ranges_witness :
  exists GM PM SM,
    stability_margins lag_lib (SysTF (tf_siso lag_num lag_den)) true
      epsw_default
    = Ok (Tuple6 (Arr GM) (Arr PM) (Arr SM)
                 (Arr (analytic_w_180 lag_lib lag_num lag_den epsw_default))
                 (Arr (analytic_wc lag_lib lag_num lag_den epsw_default))
                 (Arr (analytic_wstab lag_lib lag_num lag_den epsw_default)))
    /\ length GM = 1%nat /\ Forall (fun g => 0 <= g) GM.
Proof.
  destruct (margin_arrays_ranges lag_lib (SysTF (tf_siso lag_num lag_den))
              (LtiTF (tf_siso lag_num lag_den)) epsw_default _ _ _ _ _
              eq_refl (crossovers_siso lag_lib lag_num lag_den epsw_default)
              (stability_margins_siso_all lag_lib (tf_siso lag_num lag_den)
                 lag_num lag_den epsw_default eq_refl eq_refl eq_refl))
    as (GM & PM & SM & E & L1 & _ & _ & HG & _).
  exists GM, PM, SM. split; [|split; [|exact HG]].
  - rewrite <- E.
    exact (stability_margins_siso_all lag_lib (tf_siso lag_num lag_den)
             lag_num lag_den epsw_default eq_refl eq_refl eq_refl).
  - rewrite L1, lag_analytic_w_180. reflexivity.
Defined.
